(** * Treadmill websocket pub/sub hub: a shallow embedding

    The development follows [treadmill/websocket/__init__.py]: the
    [DirWatchPubSub] hub (registration, live fan-out, state-of-the-world
    replay, garbage collection) and the [_WS] protocol handler built by
    [make_handler].  Python objects that are mutated in place (the
    [handlers] dictionary, the websocket handler objects) live in an
    explicit store; code that can raise runs in a state-and-exception
    monad in which the mutations made before a [raise] persist. *)

From Stdlib Require Import ZArith QArith Ascii String List Sorted Lia.
From Stdlib Require DecimalString.
From stdpp Require Import base option list gmap strings.

Local Open Scope string_scope.
Local Open Scope Z_scope.

(** ** Python values the hub manipulates *)

Module Py.

(** Exception classes of Python 2 that the hub's [except] clauses tell
    apart.  [IOError] and [OSError] are siblings below
    [EnvironmentError]; [StandardError] does not contain every
    [Exception] (user-defined classes that derive from [Exception], such
    as [yaml.YAMLError] or tornado's [WebSocketClosedError], are outside
    of it).  What is raised is an [Exception]: [KeyboardInterrupt],
    [SystemExit] and [GeneratorExit] are left out. *)
Inductive exn_class : Type :=
  | IOError
  | OSError
  | StandardErrorSub (name : string)
  | ExceptionSub (name : string).

Record exn : Type := Exn {
  exn_cls : exn_class;
  exn_errno : option Z;
  exn_str : string          (* str(err) *)
}.

Definition ENOENT : Z := 2.

(* type(err).__name__ *)
Definition cls_name (c : exn_class) : string :=
  match c with
  | IOError => "IOError"
  | OSError => "OSError"
  | StandardErrorSub n => n
  | ExceptionSub n => n
  end.

(* isinstance(err, StandardError) *)
Definition is_StandardError (e : exn) : bool :=
  match exn_cls e with
  | IOError | OSError | StandardErrorSub _ => true
  | ExceptionSub _ => false
  end.

(* isinstance(err, Exception) *)
Definition is_Exception (e : exn) : bool := true.

(* isinstance(err, IOError) *)
Definition is_IOError (e : exn) : bool :=
  match exn_cls e with IOError => true | _ => false end.

(* isinstance(err, (IOError, OSError)) *)
Definition is_IOError_or_OSError (e : exn) : bool :=
  match exn_cls e with IOError | OSError => true | _ => false end.

Definition errno_is_ENOENT (e : exn) : bool :=
  match exn_errno e with
  | Some n => Z.eqb n ENOENT
  | None => false
  end.

Definition env_error (c : exn_class) (errno : Z) : exn :=
  Exn c (Some errno) "[Errno] environment error".

(** Decoded JSON, as [json.loads] returns it (numbers are the integers of
    the wire contract). *)
#[warnings="-register-all"]
Inductive json : Type :=
  | JNull
  | JBool (b : bool)
  | JInt (z : Z)
  | JStr (s : string)
  | JArr (l : list json)
  | JObj (fields : list (string * json)).

(* Python truth value, as tested by [if snapshot:] *)
Definition truthy (v : json) : bool :=
  match v with
  | JNull => false
  | JBool b => b
  | JInt z => negb (Z.eqb z 0)
  | JStr s => negb (String.eqb s EmptyString)
  | JArr l => match l with [] => false | _ => true end
  | JObj f => match f with [] => false | _ => true end
  end.

Fixpoint assoc (k : string) (f : list (string * json)) : option json :=
  match f with
  | [] => None
  | (k', v) :: r => if String.eqb k k' then Some v else assoc k r
  end.

(* message.get(key, dflt) on a dict *)
Definition dict_get (f : list (string * json)) (k : string) (dflt : json) : json :=
  match assoc k f with Some v => v | None => dflt end.

(* repr(), for the hashable values that can reach ['%r' % topic] *)
Definition repr (v : json) : string :=
  match v with
  | JNull => "None"
  | JBool true => "True"
  | JBool false => "False"
  | JInt z => DecimalString.NilZero.string_of_int (Z.to_int z)
  | JStr s => "u'" ++ s ++ "'"
  | JArr _ => "[...]"
  | JObj _ => "{...}"
  end.

(** The value of a JSON scalar in a numeric comparison ([True] is 1). *)
Definition as_number (v : json) : option Z :=
  match v with
  | JInt z => Some z
  | JBool b => Some (if b then 1 else 0)
  | _ => None
  end.

(** [x >= v] for a float [x] (CPython 2 ordering: [None] is below every
    number, every number is below a string, a list or a dict). *)
Definition float_ge (x : Q) (v : json) : bool :=
  match as_number v with
  | Some z => Qle_bool (inject_Z z) x
  | None => match v with JNull => true | _ => false end
  end.

(* int(x) for a float x: truncation towards zero *)
Definition int_of_float (x : Q) : Z := Z.quot (Qnum x) (Zpos (Qden x)).

(** *** posixpath *)

Definition slash : ascii := "/"%char.
Definition dot : ascii := "."%char.

(* s.lstrip('/') *)
Fixpoint lstrip_slash (s : string) : string :=
  match s with
  | String c r => if Ascii.eqb c slash then lstrip_slash r else s
  | EmptyString => EmptyString
  end.

(* s.rstrip('/') *)
Fixpoint rstrip_slash (s : string) : string :=
  match s with
  | EmptyString => EmptyString
  | String c r =>
      match rstrip_slash r with
      | EmptyString => if Ascii.eqb c slash then EmptyString else String c EmptyString
      | r' => String c r'
      end
  end.

Fixpoint ends_with_slash (s : string) : bool :=
  match s with
  | EmptyString => false
  | String c EmptyString => Ascii.eqb c slash
  | String _ r => ends_with_slash r
  end.

(* os.path.join(a, b) *)
Definition path_join (a b : string) : string :=
  match b with
  | String c _ =>
      if Ascii.eqb c slash then b
      else if String.eqb a EmptyString || ends_with_slash a then a ++ b
      else a ++ "/" ++ b
  | EmptyString =>
      if String.eqb a EmptyString || ends_with_slash a then a else a ++ "/"
  end.

(* (p[:i], p[i:]) for i = p.rfind('/') + 1 *)
Fixpoint rsplit_slash (p : string) : string * string :=
  match p with
  | EmptyString => (EmptyString, EmptyString)
  | String c r =>
      let (h, t) := rsplit_slash r in
      match h with
      | EmptyString =>
          if Ascii.eqb c slash then (String c EmptyString, t)
          else (EmptyString, String c t)
      | _ => (String c h, t)
      end
  end.

(* os.path.basename *)
Definition basename (p : string) : string := snd (rsplit_slash p).

(* os.path.dirname *)
Definition dirname (p : string) : string :=
  let head := fst (rsplit_slash p) in
  match rstrip_slash head with
  | EmptyString => head            (* empty, or nothing but slashes *)
  | stripped => stripped
  end.

(* s[n:] *)
Fixpoint drop_prefix (n : nat) (s : string) : string :=
  match n, s with
  | O, _ => s
  | S n', String _ r => drop_prefix n' r
  | S _, EmptyString => EmptyString
  end.

(** *** fnmatch

    [fnmatch.translate] turns a pattern into a regular expression; the
    tokens below are the pieces of that expression. *)
Inductive tok : Type :=
  | TStar                              (* '*'  ->  .*  *)
  | TAny                               (* '?'  ->  .   *)
  | TLit (c : ascii)
  | TClass (negated : bool) (stuff : list ascii).

(* position of the ']' that closes a bracket expression whose first
   character (after an optional '!') has been skipped *)
Fixpoint find_close (l : list ascii) : option (list ascii * list ascii) :=
  match l with
  | [] => None
  | c :: r =>
      if Ascii.eqb c "]"%char then Some ([], r)
      else match find_close r with
           | Some (inside, rest) => Some (c :: inside, rest)
           | None => None
           end
  end.

Definition split_class (l : list ascii) : option (bool * list ascii * list ascii) :=
  let (neg, l1) :=
    match l with
    | c :: r => if Ascii.eqb c "!"%char then (true, r) else (false, l)
    | [] => (false, l)
    end in
  match l1 with
  | c :: r =>
      if Ascii.eqb c "]"%char then
        match find_close r with
        | Some (inside, rest) => Some (neg, c :: inside, rest)
        | None => None
        end
      else
        match find_close l1 with
        | Some (inside, rest) => Some (neg, inside, rest)
        | None => None
        end
  | [] => None
  end.

Fixpoint translate_fuel (fuel : nat) (pat : list ascii) : list tok :=
  match fuel with
  | O => []
  | S fuel' =>
      match pat with
      | [] => []
      | c :: r =>
          if Ascii.eqb c "*"%char then TStar :: translate_fuel fuel' r
          else if Ascii.eqb c "?"%char then TAny :: translate_fuel fuel' r
          else if Ascii.eqb c "["%char then
            match split_class r with
            | Some (neg, stuff, rest) => TClass neg stuff :: translate_fuel fuel' rest
            | None => TLit c :: translate_fuel fuel' r
            end
          else TLit c :: translate_fuel fuel' r
      end
  end.

Definition translate (pat : string) : list tok :=
  let l := list_ascii_of_string pat in
  translate_fuel (S (List.length l)) l.

(* membership in a regular-expression character set: single characters
   and ranges a-b *)
Fixpoint in_class (c : ascii) (stuff : list ascii) : bool :=
  match stuff with
  | [] => false
  | a :: r =>
      match r with
      | m :: b :: r' =>
          if Ascii.eqb m "-"%char then
            (N.leb (N_of_ascii a) (N_of_ascii c) && N.leb (N_of_ascii c) (N_of_ascii b))
            || in_class c r'
          else Ascii.eqb a c || in_class c r
      | _ => Ascii.eqb a c || in_class c r
      end
  end.

Definition tok_accepts (t : tok) (c : ascii) : bool :=
  match t with
  | TStar | TAny => true
  | TLit a => Ascii.eqb a c
  | TClass neg stuff => xorb neg (in_class c stuff)
  end.

Fixpoint toks_match (ts : list tok) (s : list ascii) {struct ts} : bool :=
  match ts with
  | [] => match s with [] => true | _ => false end
  | TStar :: ts' =>
      (fix star (s : list ascii) : bool :=
         toks_match ts' s ||
         match s with
         | [] => false
         | _ :: s' => star s'
         end) s
  | t :: ts' =>
      match s with
      | [] => false
      | c :: s' => tok_accepts t c && toks_match ts' s'
      end
  end.

(* what the compiled expression of [pat] answers for [name] (on a POSIX
   host, where normcase is the identity) *)
Definition fnmatch (name pat : string) : bool :=
  toks_match (translate pat) (list_ascii_of_string name).

(** [re.compile] reads the items of a bracket expression from left to
    right, as [in_class] does, and refuses a range that ends below its
    start ("bad character range"); nothing else in a translated pattern
    can be refused. *)
Fixpoint ranges_ok (stuff : list ascii) : bool :=
  match stuff with
  | [] => true
  | a :: r =>
      match r with
      | m :: b :: r' =>
          if Ascii.eqb m "-"%char then
            N.leb (N_of_ascii a) (N_of_ascii b) && ranges_ok r'
          else ranges_ok r
      | _ => ranges_ok r
      end
  end.

Definition tok_compiles (t : tok) : bool :=
  match t with
  | TClass _ stuff => ranges_ok stuff
  | _ => true
  end.

(* re.compile(fnmatch.translate(pat)) does not raise *)
Definition compiles (pat : string) : bool := forallb tok_compiles (translate pat).

(* sre_constants.error, which derives from Exception *)
Definition re_error : exn := Exn (ExceptionSub "error") None "bad character range".

(* the first character of a non-empty string; [s[0]] raises IndexError
   on the empty one *)
Definition head_char (s : string) : option ascii :=
  match s with
  | String c _ => Some c
  | EmptyString => None
  end.

End Py.

Import Py.

(** ** The world outside of the hub *)

(** What the operating system answers when the hub asks.  Every call is
    answered on its own, so a file may be listed by [listdir] and be gone
    at the next [os.stat], or be there for [os.stat] and gone for
    [open]: a failed call carries its [errno]. *)
Record filesystem : Type := {
  realpath : string -> string;
  listdir : string -> option (list string);  (* names only; None: os.error *)
  stat_mtime : string -> Z + Q;              (* os.stat(p).st_mtime, or OSError(errno) *)
  read_file : string -> Z + string;          (* open(p).read(), or IOError(errno) *)
  path_exists : string -> bool;              (* os.path.exists: links are followed *)
  path_lexists : string -> bool;             (* os.path.lexists: a broken link exists *)
  path_isdir : string -> bool
}.

(* a row of the [sow] table: SELECT timestamp, path, data *)
Definition record : Type := Z * string * string.

Record world : Type := {
  fs : filesystem;
  sqlite : string -> option (list record);   (* the [sow] table of a database file *)
  time_time : Q;                             (* time.time() *)
  utcnow : string;                           (* datetime.utcnow().isoformat() *)
  json_loads : string -> option json         (* None: json.loads raises ValueError *)
}.

(** ** Websocket handlers *)

Definition payload : Type := list (string * json).

(** A frame handed to [write_message].  [Message body when] is the
    dictionary [body] after [body['when'] = when]. *)
Inductive frame : Type :=
  | Message (body : payload) (when : Q)
  | ErrorMsg (_error : string) (when : string).

Inductive wire_event : Type :=
  | Written (f : frame)
  | Closed.

(** A [_WS] handler object.  [ws_connection] is the attribute that
    [active] tests; [wire] is the history of what went out on the
    connection.  The transport follows tornado's [WebSocketHandler]:
    [close] closes an open connection and clears [ws_connection],
    [write_message] raises [WebSocketClosedError] once it is cleared. *)
Record handler_obj : Type := {
  ws_connection : bool;
  wire : list wire_event
}.

#[export] Instance handler_obj_inhabited : Inhabited handler_obj :=
  populate {| ws_connection := false; wire := [] |}.

(* the operation of a live event: 'c', 'm', 'd'; a replayed record has None *)
Inductive operation : Type := Created | Modified | Deleted.

(* how a call ends: with a value, or with an exception *)
Inductive outcome (A : Type) : Type :=
  | Ret (a : A)
  | Raise (e : exn).
Arguments Ret {A} a.
Arguments Raise {A} e.

(** A topic implementation: the two callables and the optional [sow_db]
    attribute. *)
Record topic_impl : Type := {
  subscribe : json -> outcome (list (string * string));
  on_event : string -> option operation -> option string -> outcome (option payload);
  sow_db : option string
}.

(* an element of a [handlers] bucket: (pattern, ws_handler, impl) *)
Record subscription : Type := {
  sub_pattern : string;
  sub_handler : nat;         (* reference to the handler object *)
  sub_impl : topic_impl
}.

(** Modelled from the spec: [treadmill.dirwatch.DirWatcher] is not among
    the sources.  The watcher "supports dynamic add/remove of watched
    directories"; its state is the list of registrations it holds.
    [add_dir] adds one registration (a second add of the same path would
    show up as a second entry), [remove_dir] drops the registrations of
    the path. *)
Definition dirwatcher : Type := list string.
Definition add_dir (d : string) (w : dirwatcher) : dirwatcher := d :: w.
Definition remove_dir (d : string) (w : dirwatcher) : dirwatcher :=
  List.filter (fun d' => negb (String.eqb d' d)) w.

(** A Raw Event, as [_notify] receives it: (path, operation, content, when). *)
Definition raw_event : Type := string * option operation * option string * Q.

(** [DirWatchPubSub]: the fields of the object.  [dispatched] is a ghost
    history of the Raw Events handed to [_notify], oldest first. *)
Record pubsub : Type := {
  root : string;
  impl : gmap string topic_impl;
  handlers : gmap string (list subscription);
  watcher : dirwatcher;
  dispatched : list raw_event
}.

(** The heap: the hub and the handler objects that subscriptions refer to. *)
Record state : Type := {
  hub : pubsub;
  conns : gmap nat handler_obj
}.

Definition set_hub (f : pubsub -> pubsub) (st : state) : state :=
  {| hub := f (hub st); conns := conns st |}.

Definition set_handlers (h : gmap string (list subscription)) (p : pubsub) : pubsub :=
  {| root := root p; impl := impl p; handlers := h; watcher := watcher p;
     dispatched := dispatched p |}.

Definition set_watcher (w : dirwatcher) (p : pubsub) : pubsub :=
  {| root := root p; impl := impl p; handlers := handlers p; watcher := w;
     dispatched := dispatched p |}.

Definition set_dispatched (l : list raw_event) (p : pubsub) : pubsub :=
  {| root := root p; impl := impl p; handlers := handlers p; watcher := watcher p;
     dispatched := l |}.

Definition set_conn (h : nat) (c : handler_obj) (st : state) : state :=
  {| hub := hub st; conns := <[h := c]> (conns st) |}.

(* DirWatchPubSub(root), with the topic table filled in *)
Definition new_pubsub (r : string) (impls : gmap string topic_impl) : pubsub :=
  {| root := r; impl := impls; handlers := ∅; watcher := []; dispatched := [] |}.

(** ** State and exceptions *)

Definition M (A : Type) : Type := state -> outcome A * state.

Definition ret {A} (a : A) : M A := fun st => (Ret a, st).
Definition raise {A} (e : exn) : M A := fun st => (Raise e, st).
Definition bind {A B} (m : M A) (k : A -> M B) : M B :=
  fun st =>
    match m st with
    | (Ret a, st') => k a st'
    | (Raise e, st') => (Raise e, st')
    end.

(* try: m  except <classes accepted by catches> as err: h err *)
Definition try_except {A} (m : M A) (catches : exn -> bool) (h : exn -> M A) : M A :=
  fun st =>
    match m st with
    | (Ret a, st') => (Ret a, st')
    | (Raise e, st') => if catches e then h e st' else (Raise e, st')
    end.

Definition lift {A} (o : outcome A) : M A :=
  match o with
  | Ret a => ret a
  | Raise e => raise e
  end.

Declare Scope hub_scope.
Delimit Scope hub_scope with hub.
Notation "x <- m ;; k" := (bind m (fun x => k))
  (at level 100, m at next level, right associativity) : hub_scope.
Notation "m ;;; k" := (bind m (fun _ => k))
  (at level 100, right associativity) : hub_scope.
Local Open Scope hub_scope.

(* for x in l: body x *)
Fixpoint for_each {A} (l : list A) (body : A -> M unit) : M unit :=
  match l with
  | [] => ret tt
  | x :: r => body x ;;; for_each r body
  end.

Definition get_state : M state := fun st => (Ret st, st).
Definition modify (f : state -> state) : M unit := fun st => (Ret tt, f st).

Definition obind {A B} (o : outcome A) (k : A -> outcome B) : outcome B :=
  match o with
  | Ret a => k a
  | Raise e => Raise e
  end.

(** The two calls of the fnmatch module that the hub and glob make; an
    exception of [re.compile] leaves them. *)

(* fnmatch.fnmatch(name, pat): the pattern is compiled, then matched *)
Definition fnmatch_fnmatch (name pat : string) : outcome bool :=
  if compiles pat then Ret (fnmatch name pat) else Raise re_error.

(* fnmatch.filter(names, pat): the pattern is compiled even when there
   is no name to match *)
Definition fnmatch_filter (names : list string) (pat : string)
    : outcome (list string) :=
  if compiles pat then Ret (List.filter (fun x => fnmatch x pat) names)
  else Raise re_error.

(** ** [_WS]: the handler methods the hub calls *)

(* active(): bool(self.ws_connection) *)
Definition active (st : state) (h : nat) : bool :=
  ws_connection (conns st !!! h).

Definition WebSocketClosedError : exn :=
  Exn (ExceptionSub "WebSocketClosedError") None EmptyString.

Definition write_message (h : nat) (f : frame) : M unit :=
  fun st =>
    let c := conns st !!! h in
    if ws_connection c
    then (Ret tt, set_conn h {| ws_connection := true; wire := wire c ++ [Written f] |} st)
    else (Raise WebSocketClosedError, st).

Definition close (h : nat) : M unit :=
  fun st =>
    let c := conns st !!! h in
    if ws_connection c
    then (Ret tt, set_conn h {| ws_connection := false; wire := wire c ++ [Closed] |} st)
    else (Ret tt, st).

Definition send_error_msg (w : world) (h : nat) (error_str : string)
    (close_conn : bool) : M unit :=
  write_message h (ErrorMsg error_str (utcnow w)) ;;;
  if close_conn then close h else ret tt.

(** ** [DirWatchPubSub] *)

(* self.handlers[directory] on the defaultdict(list): looking up a missing
   key binds it to a new empty list *)
Definition handlers_getitem (directory : string) : M (list subscription) :=
  fun st =>
    match handlers (hub st) !! directory with
    | Some l => (Ret l, st)
    | None =>
        (Ret [], set_hub (fun p => set_handlers (<[directory := []]> (handlers p)) p) st)
    end.

(* self.handlers[directory] = l *)
Definition handlers_setitem (directory : string) (l : list subscription) : M unit :=
  modify (set_hub (fun p => set_handlers (<[directory := l]> (handlers p)) p)).

(* one turn of the loop of [_notify] *)
Definition notify_sub (w : world) (root_len : nat) (path filename : string)
    (op : option operation) (content : option string) (when : Q)
    (s : subscription) : M unit :=
  st <- get_state ;;
  if negb (active st (sub_handler s)) then ret tt
  else
    matched <- lift (fnmatch_fnmatch filename (sub_pattern s)) ;;
    if matched then
      try_except
        (payload <- lift (on_event (sub_impl s) (drop_prefix root_len path) op content) ;;
         match payload with
         | Some body => write_message (sub_handler s) (Message body when)
         | None => ret tt
         end)
        is_StandardError
        (fun err =>
           send_error_msg w (sub_handler s)
             (cls_name (exn_cls err) ++ ": " ++ exn_str err) true)
    else ret tt.

(* the first step records the event in the ghost history *)
Definition _notify (w : world) (path : string) (op : option operation)
    (content : option string) (when : Q) : M unit :=
  modify (set_hub (fun p =>
    set_dispatched (dispatched p ++ [(path, op, content, when)]) p)) ;;;
  st <- get_state ;;
  let root_len := String.length (root (hub st)) in
  let directory := dirname path in
  let filename := basename path in
  subs <- handlers_getitem directory ;;
  for_each subs (notify_sub w root_len path filename op content when).

Definition os_stat (w : world) (p : string) : outcome Q :=
  match stat_mtime (fs w) p with
  | inl errno => Raise (env_error OSError errno)
  | inr m => Ret m
  end.

Definition open_read (w : world) (p : string) : outcome string :=
  match read_file (fs w) p with
  | inl errno => Raise (env_error IOError errno)
  | inr s => Ret s
  end.

Definition _handle (w : world) (operation : operation) (filename : string) : M unit :=
  ev <- try_except
          (mtime <- lift (os_stat w filename) ;;
           content <- lift (open_read w filename) ;;
           ret (Some operation, Some content, inject_Z (int_of_float mtime)))
          is_IOError
          (fun err =>
             if negb (errno_is_ENOENT err) then raise err
             else ret (Some Deleted, None, inject_Z (int_of_float (time_time w)))) ;;
  let '(operation, content, when) := ev in
  _notify w filename operation content when.

Definition IndexError : exn :=
  Exn (StandardErrorSub "IndexError") None "string index out of range".

(* s[0] *)
Definition getitem0 (s : string) : outcome ascii :=
  match head_char s with
  | Some c => Ret c
  | None => Raise IndexError
  end.

(** The three watcher callbacks.  They are wrapped in
    [exc.exit_on_unhandled]: an exception that leaves them ends the
    process, which is the [Raise] outcome here. *)
Definition _on_created (w : world) (filename : string) : M unit :=
  c <- lift (getitem0 (basename filename)) ;;
  if Ascii.eqb c dot then ret tt
  else _handle w Created filename.

Definition _on_modified (w : world) (filename : string) : M unit :=
  c <- lift (getitem0 (basename filename)) ;;
  if Ascii.eqb c dot then ret tt
  else _handle w Modified filename.

Definition _on_deleted (w : world) (filename : string) : M unit :=
  c <- lift (getitem0 (basename filename)) ;;
  if Ascii.eqb c dot then ret tt
  else if path_exists (fs w) (path_join (dirname filename) ".done") then ret tt
  else if path_isdir (fs w) filename then ret tt
  else _notify w filename (Some Deleted) None (time_time w).

(** ** State of the world *)

(** Python's order on the (when, path, content) tuples. *)
Definition record_compare (a b : record) : comparison :=
  let '(wa, pa, ca) := a in
  let '(wb, pb, cb) := b in
  match Z.compare wa wb with
  | Eq => match String.compare pa pb with
          | Eq => String.compare ca cb
          | c => c
          end
  | c => c
  end.

Definition record_leb (a b : record) : bool :=
  match record_compare a b with Gt => false | _ => true end.

Definition rec_when (r : record) : Z := fst (fst r).
Definition rec_path (r : record) : string := snd (fst r).
Definition rec_content (r : record) : string := snd r.

Fixpoint insert_sorted {A} (leb : A -> A -> bool) (x : A) (l : list A) : list A :=
  match l with
  | [] => [x]
  | y :: r => if leb x y then x :: l else y :: insert_sorted leb x r
  end.

Fixpoint sort_by {A} (leb : A -> A -> bool) (l : list A) : list A :=
  match l with
  | [] => []
  | x :: r => insert_sorted leb x (sort_by leb r)
  end.

(* sorted(items) *)
Definition sorted (items : list record) : list record := sort_by record_leb items.

(* heapq.merge(a, b): the heap holds the head of each of the two inputs,
   keyed by (value, input number), so the smaller head goes out first and
   the first input wins a tie *)
Fixpoint heapq_merge (a b : list record) {struct a} : list record :=
  let fix merge_b (b : list record) {struct b} : list record :=
    match a, b with
    | [], _ => b
    | _, [] => a
    | x :: a', y :: b' =>
        if record_leb x y then x :: heapq_merge a' b
        else y :: merge_b b'
    end in
  merge_b b.

(** *** glob

    [glob.glob(pathname)] of Python 2.7, on the filesystem of the world.
    A pathname without magic is looked up by name.  Otherwise it is
    split at its last slash: the directory part is globbed first when it
    has magic itself, and in each directory found the last component is
    matched by [glob1] (the directory is listed, the names that start
    with a dot are hidden unless the pattern does too, and the rest goes
    through [fnmatch.filter]) or, when it has no magic, looked up by
    [glob0]. *)
Definition is_magic (c : ascii) : bool :=
  Ascii.eqb c "*"%char || Ascii.eqb c "?"%char || Ascii.eqb c "["%char.

Definition has_magic (s : string) : bool :=
  existsb is_magic (list_ascii_of_string s).

Definition starts_with_dot (s : string) : bool :=
  match head_char s with
  | Some c => Ascii.eqb c dot
  | None => false
  end.

(* os.path.split *)
Definition path_split (p : string) : string * string :=
  let (head, tail) := rsplit_slash p in
  (match rstrip_slash head with
   | EmptyString => head            (* empty, or nothing but slashes *)
   | stripped => stripped
   end, tail).

(* os.curdir *)
Definition curdir : string := ".".

Definition glob1 (w : world) (dirname pattern : string) : outcome (list string) :=
  let dirname := if String.eqb dirname EmptyString then curdir else dirname in
  match listdir (fs w) dirname with
  | None => Ret []
  | Some names =>
      obind (getitem0 pattern) (fun c =>
      let names :=
        if negb (Ascii.eqb c dot)
        then List.filter (fun x => negb (starts_with_dot x)) names
        else names in
      fnmatch_filter names pattern)
  end.

Definition glob0 (w : world) (dirname basename : string) : list string :=
  if String.eqb basename EmptyString then
    if path_isdir (fs w) dirname then [basename] else []
  else
    if path_lexists (fs w) (path_join dirname basename) then [basename] else [].

(* for dirname in dirs: for name in glob_in_dir(dirname, basename):
     yield os.path.join(dirname, name) *)
Fixpoint glob_in_dirs (glob_in_dir : string -> outcome (list string))
    (dirs : list string) : outcome (list string) :=
  match dirs with
  | [] => Ret []
  | dirname :: r =>
      obind (glob_in_dir dirname) (fun names =>
      obind (glob_in_dirs glob_in_dir r) (fun rest =>
        Ret (List.map (path_join dirname) names ++ rest)%list))
  end.

(** The body of [iglob], drained into a list; [iglob] stands for the
    recursive call, which is made on the directory part of a pathname
    when that part has magic too. *)
Definition iglob_step (w : world) (iglob : string -> outcome (list string))
    (pathname : string) : outcome (list string) :=
  let (dirname, basename) := path_split pathname in
  if negb (has_magic pathname) then
    if negb (String.eqb basename EmptyString) then
      Ret (if path_lexists (fs w) pathname then [pathname] else [])
    else
      Ret (if path_isdir (fs w) dirname then [pathname] else [])
  else if String.eqb dirname EmptyString then glob1 w curdir basename
  else
    obind (if negb (String.eqb dirname pathname) && has_magic dirname
           then iglob dirname
           else Ret [dirname]) (fun dirs =>
    glob_in_dirs
      (fun d => if has_magic basename then glob1 w d basename
                else Ret (glob0 w d basename))
      dirs).

(** The directory part is shorter than the pathname it is split from, so
    the recursion ends: [fuel] bounds the length of the pathname (lemma
    [iglob_fuel]). *)
Fixpoint iglob (fuel : nat) (w : world) (pathname : string)
    : outcome (list string) :=
  iglob_step w
    (match fuel with
     | S fuel' => iglob fuel' w
     | O => fun _ => Ret []
     end)
    pathname.

Definition glob_glob (w : world) (pathname : string) : outcome (list string) :=
  iglob (String.length pathname) w pathname.

(* the body of the loop of [_get_fs_sow]: the item to append, if any *)
Definition fs_sow_item (w : world) (root_len : nat) (since : json)
    (filename : string) : outcome (option record) :=
  match
    obind (os_stat w filename) (fun mtime =>
    obind (open_read w filename) (fun content =>
      if float_ge mtime since
      then Ret (Some (int_of_float mtime, drop_prefix root_len filename, content))
      else Ret None))
  with
  | Ret o => Ret o
  | Raise err =>
      if is_IOError_or_OSError err then
        if negb (errno_is_ENOENT err) then Raise err else Ret None
      else Raise err
  end.

Fixpoint fs_sow_items (w : world) (root_len : nat) (since : json)
    (files : list string) : outcome (list record) :=
  match files with
  | [] => Ret []
  | filename :: r =>
      obind (fs_sow_item w root_len since filename) (fun o =>
      obind (fs_sow_items w root_len since r) (fun items =>
        Ret (match o with Some it => it :: items | None => items end)))
  end.

Definition _get_fs_sow (w : world) (root : string) (directory pattern : string)
    (since : json) : outcome (list record) :=
  let root_len := String.length root in
  let fs_glob := path_join directory pattern in
  obind (glob_glob w fs_glob) (fun files =>
  obind (fs_sow_items w root_len since files) (fun items => Ret (sorted items))).

(** *** The historical store

    SQLite's GLOB on the whole path (the comparison [patternCompare] of
    SQLite 3): [*] stands for any run of characters, [?] for one
    character, and [[...]] for a set, negated by [^], in which a first
    []] is a character of the set and [a-b] is a range when it follows a
    single character and is not at the end; a range that runs backwards
    holds no character, and a set that is not closed matches nothing. *)
Inductive gtok : Type :=
  | GStar
  | GAny
  | GLit (c : ascii)
  | GSet (invert : bool) (rbracket : bool) (body : list ascii)
  | GUnclosed.

(* the loop over the characters of a set: is [c] seen? *)
Fixpoint set_seen (c : ascii) (prior : option ascii) (body : list ascii) : bool :=
  match body with
  | [] => false
  | c2 :: r =>
      match prior, r with
      | Some p, d :: r' =>
          if Ascii.eqb c2 "-"%char then
            (N.leb (N_of_ascii p) (N_of_ascii c) && N.leb (N_of_ascii c) (N_of_ascii d))
            || set_seen c None r'
          else Ascii.eqb c c2 || set_seen c (Some c2) r
      | _, _ => Ascii.eqb c c2 || set_seen c (Some c2) r
      end
  end.

(* the set that starts after a '[': its token and the rest of the pattern *)
Definition glob_set (l : list ascii) : option (gtok * list ascii) :=
  let (invert, l1) :=
    match l with
    | c :: r => if Ascii.eqb c "^"%char then (true, r) else (false, l)
    | [] => (false, l)
    end in
  let (rbracket, l2) :=
    match l1 with
    | c :: r => if Ascii.eqb c "]"%char then (true, r) else (false, l1)
    | [] => (false, l1)
    end in
  match find_close l2 with
  | Some (body, rest) => Some (GSet invert rbracket body, rest)
  | None => None
  end.

Fixpoint glob_toks (fuel : nat) (pat : list ascii) : list gtok :=
  match fuel with
  | O => []
  | S fuel' =>
      match pat with
      | [] => []
      | c :: r =>
          if Ascii.eqb c "*"%char then GStar :: glob_toks fuel' r
          else if Ascii.eqb c "?"%char then GAny :: glob_toks fuel' r
          else if Ascii.eqb c "["%char then
            match glob_set r with
            | Some (t, rest) => t :: glob_toks fuel' rest
            | None => [GUnclosed]
            end
          else GLit c :: glob_toks fuel' r
      end
  end.

Definition gtok_accepts (t : gtok) (c : ascii) : bool :=
  match t with
  | GStar | GAny => true
  | GLit a => Ascii.eqb a c
  | GSet invert rbracket body =>
      xorb invert ((rbracket && Ascii.eqb c "]"%char) || set_seen c None body)
  | GUnclosed => false
  end.

Fixpoint gtoks_match (ts : list gtok) (s : list ascii) {struct ts} : bool :=
  match ts with
  | [] => match s with [] => true | _ => false end
  | GStar :: ts' =>
      (fix star (s : list ascii) : bool :=
         gtoks_match ts' s ||
         match s with
         | [] => false
         | _ :: s' => star s'
         end) s
  | t :: ts' =>
      match s with
      | [] => false
      | c :: s' => gtok_accepts t c && gtoks_match ts' s'
      end
  end.

(* path GLOB pat *)
Definition sqlite_glob (pat path : string) : bool :=
  let l := list_ascii_of_string pat in
  gtoks_match (glob_toks (S (List.length l)) l) (list_ascii_of_string path).

Definition InterfaceError : exn :=
  Exn (StandardErrorSub "InterfaceError") None
      "Error binding parameter 1 - probably unsupported type.".
Definition OperationalError : exn :=
  Exn (StandardErrorSub "OperationalError") None "no such table: sow".
Definition OverflowError : exn :=
  Exn (StandardErrorSub "OverflowError") None
      "Python int too large to convert to SQLite INTEGER".

(* timestamp >= ? with the bound value: SQLite puts NULL and numbers
   before text *)
Definition sql_ge (ts : Z) (since : json) : bool :=
  match as_number since with
  | Some z => Z.leb z ts
  | None => false
  end.

(* what binding [since] to the second parameter raises: a list or a dict
   has no SQLite type, an integer must fit in 64 bits *)
Definition sql_bind (since : json) : outcome unit :=
  match since with
  | JArr _ | JObj _ => Raise InterfaceError
  | JInt z =>
      if Z.leb (- 2 ^ 63) z && Z.ltb z (2 ^ 63) then Ret tt
      else Raise OverflowError
  | _ => Ret tt
  end.

(* SELECT timestamp, path, data FROM sow
   WHERE path GLOB ? AND timestamp >= ? ORDER BY timestamp *)
Definition sow_select (w : world) (dbpath db_glob : string) (since : json)
    : outcome (list record) :=
  match sqlite w dbpath with
  | None => Raise OperationalError
  | Some rows =>
      obind (sql_bind since) (fun _ =>
        Ret (sort_by (fun a b => Z.leb (rec_when a) (rec_when b))
               (List.filter
                  (fun r => sqlite_glob db_glob (rec_path r) && sql_ge (rec_when r) since)
                  rows)))
  end.

(* the local function [_publish] of [_sow] *)
Definition _publish (w : world) (handler : nat) (impl : topic_impl)
    (item : record) : M unit :=
  let '(when, path, content) := item in
  try_except
    (payload <- lift (on_event impl path None (Some content)) ;;
     match payload with
     | Some body => write_message handler (Message body (inject_Z when))
     | None => ret tt
     end)
    is_Exception
    (fun err => send_error_msg w handler (exn_str err) true).

Definition same_path (prev_path : option string) (path : string) : bool :=
  match prev_path with
  | Some p => String.eqb path p
  | None => false
  end.

(* the loop over the merged records, with its [prev_path] variable *)
Fixpoint publish_merged (w : world) (handler : nat) (impl : topic_impl)
    (prev_path : option string) (items : list record) : M unit :=
  match items with
  | [] => ret tt
  | item :: r =>
      if same_path prev_path (rec_path item)
      then publish_merged w handler impl prev_path r
      else _publish w handler impl item ;;;
           publish_merged w handler impl (Some (rec_path item)) r
  end.

(* if since is None: since = 0 *)
Definition sow_since (since : json) : json :=
  match since with
  | JNull => JInt 0
  | _ => since
  end.

(* the records handed to the merge: (db_records, fs_records) *)
Definition sow_sources (w : world) (root : string) (directory pattern : string)
    (since : json) (impl : topic_impl) : outcome (list record * list record) :=
  obind (_get_fs_sow w root directory pattern since) (fun fs_records =>
  obind (match sow_db impl with
         | Some db =>
             if negb (String.eqb db EmptyString) then
               let dbpath := path_join root db in
               let db_glob :=
                 path_join (drop_prefix (String.length root) directory) pattern in
               sow_select w dbpath db_glob since
             else Ret []
         | None => Ret []
         end) (fun db_records =>
  Ret (db_records, fs_records))).

Definition _sow (w : world) (directory pattern : string) (since : json)
    (handler : nat) (impl : topic_impl) : M unit :=
  let since := sow_since since in
  st <- get_state ;;
  srcs <- lift (sow_sources w (root (hub st)) directory pattern since impl) ;;
  let '(db_records, fs_records) := srcs in
  publish_merged w handler impl None (heapq_merge db_records fs_records).

(** *** register, gc *)

(* os.path.realpath(os.path.join(self.root, directory.lstrip('/'))) *)
Definition normalized (w : world) (root directory : string) : string :=
  realpath (fs w) (path_join root (lstrip_slash directory)).

Definition register (w : world) (directory pattern : string) (ws_handler : nat)
    (impl : topic_impl) (since : json) : M unit :=
  st <- get_state ;;
  let norm_path := normalized w (root (hub st)) directory in
  bucket <- handlers_getitem norm_path ;;
  match bucket with
  | [] =>
      (* fs.mkdir_safe(norm_path) *)
      modify (set_hub (fun p => set_watcher (add_dir norm_path (watcher p)) p))
  | _ => ret tt
  end ;;;
  bucket <- handlers_getitem norm_path ;;
  handlers_setitem norm_path
    (bucket ++ [{| sub_pattern := pattern; sub_handler := ws_handler; sub_impl := impl |}]) ;;;
  _sow w norm_path pattern since ws_handler impl.

(* the body of the loop of [_gc] *)
Definition gc_dir (directory : string) : M unit :=
  bucket <- handlers_getitem directory ;;
  st <- get_state ;;
  let handlers' := List.filter (fun s => active st (sub_handler s)) bucket in
  match handlers' with
  | [] => modify (set_hub (fun p => set_watcher (remove_dir directory (watcher p)) p))
  | _ => ret tt
  end ;;;
  handlers_setitem directory handlers'.

Definition _gc : M unit :=
  st <- get_state ;;
  for_each (List.map fst (map_to_list (handlers (hub st)))) gc_dir.

(** ** The protocol layer: [_WS.on_message] *)

Definition ValueError : exn :=
  Exn (StandardErrorSub "ValueError") None "No JSON object could be decoded".
Definition KeyError (k : string) : exn :=
  Exn (StandardErrorSub "KeyError") None ("'" ++ k ++ "'").
Definition TypeError (msg : string) : exn :=
  Exn (StandardErrorSub "TypeError") None msg.

(* message[key] *)
Definition getitem (message : json) (key : string) : outcome json :=
  match message with
  | JObj fields =>
      match assoc key fields with
      | Some v => Ret v
      | None => Raise (KeyError key)
      end
  | _ => Raise (TypeError "indices must be integers")
  end.

(* pubsub.impl.get(topic): a list or a dict is not hashable *)
Definition impl_get (p : pubsub) (topic : json) : outcome (option topic_impl) :=
  match topic with
  | JStr s => Ret (impl p !! s)
  | JArr _ | JObj _ => Raise (TypeError "unhashable type")
  | _ => Ret None
  end.

(* message.get(key, dflt), once message['topic'] has shown a dict *)
Definition message_get (message : json) (key : string) (dflt : json) : json :=
  match message with
  | JObj fields => dict_get fields key dflt
  | _ => dflt
  end.

(** [pubsub] is the [DirWatchPubSub] the handler class was made for
    ([self.ws = make_handler(self)]), an object that is always true: the
    [if not pubsub] branch is not taken. *)
Definition on_message (w : world) (self : nat) (jmessage : string) : M unit :=
  try_except
    (message <- lift (match json_loads w jmessage with
                      | Some m => Ret m
                      | None => Raise ValueError
                      end) ;;
     topic <- lift (getitem message "topic") ;;
     st <- get_state ;;
     impl <- lift (impl_get (hub st) topic) ;;
     match impl with
     | None => send_error_msg w self ("Invalid topic: " ++ repr topic) true
     | Some impl =>
         let since := message_get message "since" (JInt 0) in
         let snapshot := message_get message "snapshot" (JBool false) in
         pairs <- lift (subscribe impl message) ;;
         for_each pairs (fun dp => register w (fst dp) (snd dp) self impl since) ;;;
         if truthy snapshot then close self else ret tt
     end)
    is_Exception
    (fun err => send_error_msg w self (exn_str err) true).

(** ** The identity-group topic ([websocket/api/identity_group.py]) *)

Module IdentityGroup.

(* str.isspace for one character *)
Definition is_space (c : ascii) : bool :=
  let n := N_of_ascii c in
  N.eqb n 32 || (N.leb 9 n && N.leb n 13).

Definition digit_of (c : ascii) : option Z :=
  let n := N_of_ascii c in
  if N.leb 48 n && N.leb n 57 then Some (Z.of_N n - 48) else None.

Fixpoint lstrip_space (s : string) : string :=
  match s with
  | String c r => if is_space c then lstrip_space r else s
  | EmptyString => EmptyString
  end.

Fixpoint rstrip_space (s : string) : string :=
  match s with
  | EmptyString => EmptyString
  | String c r =>
      match rstrip_space r with
      | EmptyString => if is_space c then EmptyString else String c EmptyString
      | r' => String c r'
      end
  end.

(* the value of a run of decimal digits that continues the value [acc] *)
Fixpoint digits_value (acc : Z) (s : string) : option Z :=
  match s with
  | EmptyString => Some acc
  | String c r =>
      match digit_of c with
      | Some d => digits_value (10 * acc + d) r
      | None => None
      end
  end.

Definition unsigned_value (s : string) : option Z :=
  match s with
  | EmptyString => None
  | _ => digits_value 0 s
  end.

(* int(s) for a str, as Python 2 reads it: blanks, an optional sign,
   blanks again, decimal digits, blanks; None stands for the ValueError *)
Definition py_int (s : string) : option Z :=
  match lstrip_space s with
  | String "-" r => option_map Z.opp (unsigned_value (rstrip_space (lstrip_space r)))
  | String "+" r => unsigned_value (rstrip_space (lstrip_space r))
  | t => unsigned_value (rstrip_space t)
  end.

(* type(v).__name__ of a decoded JSON value *)
Definition type_name (v : json) : string :=
  match v with
  | JNull => "NoneType"
  | JBool _ => "bool"
  | JInt _ => "int"
  | JStr _ => "unicode"
  | JArr _ => "list"
  | JObj _ => "dict"
  end.

Fixpoint drop_last (s : string) : string :=
  match s with
  | EmptyString => EmptyString
  | String c EmptyString => EmptyString
  | String c r => String c (drop_last r)
  end.

(* s.rsplit('/', 1), when it has the two parts the unpacking needs *)
Definition rsplit1 (s : string) : option (string * string) :=
  match rsplit_slash s with
  | (EmptyString, _) => None
  | (head, tail) => Some (drop_last head, tail)
  end.

Definition prefix : string := "/identity-groups/".

(* v.attr for an attribute the type of v does not have *)
Definition AttributeError (v : json) (attr : string) : exn :=
  Exn (StandardErrorSub "AttributeError") None
      ("'" ++ type_name v ++ "' object has no attribute '" ++ attr ++ "'").
Definition ValueError (msg : string) : exn :=
  Exn (StandardErrorSub "ValueError") None msg.
(* the message of int(s): the repr of s without its leading blanks (a
   printable s without quote or backslash) *)
Definition invalid_literal (s : string) : exn :=
  ValueError ("invalid literal for int() with base 10: '" ++ lstrip_space s ++ "'").
Definition unpack_error : exn := ValueError "need more than 1 value to unpack".

Section Api.
(** Two parts the module takes from elsewhere: the [schema.schema]
    decorator of [subscribe], which validates the request against a
    JSON schema that is not among the sources, and
    [message.update(yaml.load(content))], whose result (the updated
    dictionary, or the exception of the load or of the update) is the
    library's. *)
Variable schema_check : json -> outcome unit.
Variable yaml_update : payload -> string -> outcome payload.

Definition subscribe (message : json) : outcome (list (string * string)) :=
  obind (schema_check message) (fun _ =>
  match message with
  | JObj fields =>
      match dict_get fields "identity-group" (JStr "*") with
      | JStr identity_group =>
          Ret [(path_join "/identity-groups" identity_group, "*")]
      | v => Raise (AttributeError v "startswith")
      end
  | v => Raise (AttributeError v "get")
  end).

Definition on_event (filename : string) (operation : option operation)
    (content : option string) : outcome (option payload) :=
  if negb (String.prefix prefix filename) then Ret None
  else
    let sow := match operation with None => true | Some _ => false end in
    let full_identity := drop_prefix (String.length prefix) filename in
    match rsplit1 full_identity with
    | None => Raise unpack_error
    | Some (identity_group, identity) =>
        match py_int identity with
        | None => Raise (invalid_literal identity)
        | Some n =>
            let message :=
              [("topic", JStr "/identity-groups");
               ("identity-group", JStr identity_group);
               ("identity", JInt n);
               ("app", JNull);
               ("host", JNull);
               ("sow", JBool sow)] in
            match content with
            | Some (String c r) =>
                obind (yaml_update message (String c r)) (fun m => Ret (Some m))
            | _ => Ret (Some message)
            end
        end
    end.

(* IdentityGroupAPI(): no [sow_db] attribute *)
Definition api : topic_impl :=
  Build_topic_impl subscribe on_event None.
End Api.

End IdentityGroup.

(** ** Vocabulary of the statements *)

(** A request the protocol layer rejects, with the description that goes
    into the error frame: the body is not JSON; it has no ["topic"]
    member (or is not an object at all); the topic cannot be a
    dictionary key; no implementation is registered under the topic. *)
Inductive protocol_error (w : world) (p : pubsub) (jmessage : string)
    : string -> Prop :=
  | pe_not_json :
      json_loads w jmessage = None ->
      protocol_error w p jmessage (exn_str ValueError)
  | pe_no_topic message err :
      json_loads w jmessage = Some message ->
      getitem message "topic" = Raise err ->
      protocol_error w p jmessage (exn_str err)
  | pe_unhashable_topic message topic err :
      json_loads w jmessage = Some message ->
      getitem message "topic" = Ret topic ->
      impl_get p topic = Raise err ->
      protocol_error w p jmessage (exn_str err)
  | pe_unknown_topic message topic :
      json_loads w jmessage = Some message ->
      getitem message "topic" = Ret topic ->
      impl_get p topic = Ret None ->
      protocol_error w p jmessage ("Invalid topic: " ++ repr topic).

(* the connection after an error frame and the close that follows it *)
Definition errored (w : world) (error_str : string) (c : handler_obj) : handler_obj :=
  {| ws_connection := false;
     wire := wire c ++ [Written (ErrorMsg error_str (utcnow w)); Closed] |}.

(** What one turn of the loop of [_notify] that ends without an
    exception does to the handler object of the subscription: nothing
    when the connection is not live or the name does not match the
    (compiled) pattern; otherwise the message goes out, or, when the
    interpretation raises what the loop catches, the error frame
    followed by the close. *)
Definition deliver (w : world) (relpath filename : string)
    (op : option operation) (content : option string) (when : Q)
    (c : handler_obj) (s : subscription) : handler_obj :=
  if negb (ws_connection c) then c
  else if fnmatch filename (sub_pattern s) then
    match on_event (sub_impl s) relpath op content with
    | Ret (Some body) =>
        {| ws_connection := true; wire := wire c ++ [Written (Message body when)] |}
    | Ret None => c
    | Raise err => errored w (cls_name (exn_cls err) ++ ": " ++ exn_str err) c
    end
  else c.

(* the subscriptions of a bucket that belong to handler [h], in order *)
Definition subs_of (h : nat) (bucket : list subscription) : list subscription :=
  List.filter (fun s => Nat.eqb (sub_handler s) h) bucket.

(* [m] keeps [P] true of the state, whatever its outcome *)
Definition preserves {A} (P : state -> Prop) (m : M A) : Prop :=
  forall st, P st -> P (snd (m st)).

(* the two calls the hub makes on a handler keep [P] *)
Definition calls_keep (h : nat) (P : state -> Prop) : Prop :=
  (forall f, preserves P (write_message h f)) /\ preserves P (close h).

(** A property of the hub alone, or of the handlers other than [h]: it is
    kept by every call on [h]. *)
Definition frames_out (h : nat) (P : state -> Prop) : Prop :=
  forall st st', hub st' = hub st ->
    (forall h', h <> h' -> conns st' !!! h' = conns st !!! h') ->
    P st -> P st'.



(** The watcher holds no path twice, and only paths whose bucket is not
    empty. *)
Definition watch_inv (p : pubsub) : Prop :=
  NoDup (watcher p) /\
  forall d, In d (watcher p) -> exists s l, handlers p !! d = Some (s :: l).

(* the subscriptions of a bucket whose connection is live *)
Definition live_subs (cs : gmap nat handler_obj) (bucket : list subscription)
    : list subscription :=
  List.filter (fun s => ws_connection (cs !!! sub_handler s)) bucket.

(* the records of a merged sequence that the loop of [_sow] publishes *)
Fixpoint published (prev_path : option string) (items : list record) : list record :=
  match items with
  | [] => []
  | item :: r =>
      if same_path prev_path (rec_path item) then published prev_path r
      else item :: published (Some (rec_path item)) r
  end.

(* no record follows a record of the same path *)
Fixpoint no_repeat (prev_path : option string) (items : list record) : Prop :=
  match items with
  | [] => True
  | item :: r =>
      same_path prev_path (rec_path item) = false /\
      no_repeat (Some (rec_path item)) r
  end.

(** The frames of a replay in which no interpretation raises, in the
    order in which they are written ([None]: some call raises). *)
Fixpoint clean_frames (ti : topic_impl) (items : list record) : option (list frame) :=
  match items with
  | [] => Some []
  | item :: r =>
      match on_event ti (rec_path item) None (Some (rec_content item)) with
      | Ret o =>
          match clean_frames ti r with
          | Some l =>
              Some (match o with
                    | Some body => Message body (inject_Z (rec_when item)) :: l
                    | None => l
                    end)
          | None => None
          end
      | Raise _ => None
      end
  end.

(* the replay of one (directory, pattern) pair *)
Definition sow_frames (w : world) (root : string) (directory pattern : string)
    (since : json) (ti : topic_impl) : option (list frame) :=
  match sow_sources w root directory pattern (sow_since since) ti with
  | Ret (db_records, fs_records) =>
      clean_frames ti (published None (heapq_merge db_records fs_records))
  | Raise _ => None
  end.

(* the replays of all the pairs of a request, one after the other *)
Fixpoint request_frames (w : world) (root : string) (pairs : list (string * string))
    (since : json) (ti : topic_impl) : option (list frame) :=
  match pairs with
  | [] => Some []
  | dp :: r =>
      match sow_frames w root (normalized w root (fst dp)) (snd dp) since ti,
            request_frames w root r since ti with
      | Some f1, Some f2 => Some (f1 ++ f2)%list
      | _, _ => None
      end
  end.

(* between [st] and [st'], the open connection [h] was written [frames] *)
Definition wrote (h : nat) (frames : list frame) (st st' : state) : Prop :=
  root (hub st') = root (hub st) /\
  conns st' !!! h
  = {| ws_connection := true;
       wire := (wire (conns st !!! h) ++ List.map Written frames)%list |}.

(* the hub after the registration of (pattern, h, ti) under directory [d] *)
Definition registered (d pattern : string) (h : nat) (ti : topic_impl)
    (p : pubsub) : pubsub :=
  let bucket := default [] (handlers p !! d) in
  {| root := root p;
     impl := impl p;
     handlers :=
       <[d := (bucket ++ [{| sub_pattern := pattern; sub_handler := h;
                             sub_impl := ti |}])%list]> (handlers p);
     watcher := match bucket with
                | [] => add_dir d (watcher p)
                | _ => watcher p
                end;
     dispatched := dispatched p |}.

(** ** The life of a hub *)

(** What happens to a hub, one call at a time: the calls of the protocol
    layer and of the watch loop, and what the transport does to the
    handler objects between them (a new connection; a peer that goes
    away, which clears [ws_connection]). *)
Inductive call : Type :=
  | CallRegister (directory pattern : string) (ws_handler : nat)
      (impl : topic_impl) (since : json)
  | CallMessage (self : nat) (jmessage : string)
  | CallCreated (filename : string)
  | CallModified (filename : string)
  | CallDeleted (filename : string)
  | CallGc
  | PeerNew (h : nat)
  | PeerGone (h : nat).

Definition run_call (w : world) (c : call) : M unit :=
  match c with
  | CallRegister directory pattern ws_handler impl since =>
      register w directory pattern ws_handler impl since
  | CallMessage self jmessage => on_message w self jmessage
  | CallCreated filename => _on_created w filename
  | CallModified filename => _on_modified w filename
  | CallDeleted filename => _on_deleted w filename
  | CallGc => _gc
  | PeerNew h => modify (set_conn h {| ws_connection := true; wire := [] |})
  | PeerGone h =>
      modify (fun st =>
        set_conn h {| ws_connection := false; wire := wire (conns st !!! h) |} st)
  end.

(* each call finds the world as it is at that moment *)
Fixpoint run_calls (calls : list (world * call)) (st : state) : state :=
  match calls with
  | [] => st
  | (w, c) :: r => run_calls r (snd (run_call w c st))
  end.

(** ** Scenarios *)

Module Scenario.

(* a topic that reports the path of every event *)
Definition echo_impl (db : option string) : topic_impl :=
  {| subscribe := fun _ => Ret [("/endpoints", "*")];
     on_event := fun path _ _ => Ret (Some [("name", JStr path)]);
     sow_db := db |}.

(** Root [/r]; the directory [/r/endpoints] holds [a] (mtime 100), [b]
    (mtime 70.5) and the marker [.done]; the historical store [sow.db]
    has an older record of [/endpoints/a], the store [old.db] the record
    of a dotfile. *)
Definition disk : filesystem :=
  {| realpath := fun p => p;
     listdir := fun d =>
       if String.eqb d "/r/endpoints" then Some ["a"; "b"; ".done"] else None;
     stat_mtime := fun p =>
       if String.eqb p "/r/endpoints/a" then inr (100 # 1)%Q
       else if String.eqb p "/r/endpoints/b" then inr (141 # 2)%Q
       else if String.eqb p "/r/endpoints/.done" then inr (80 # 1)%Q
       else inl ENOENT;
     read_file := fun p =>
       if String.eqb p "/r/endpoints/a" then inr "A2"
       else if String.eqb p "/r/endpoints/b" then inr "B"
       else if String.eqb p "/r/endpoints/.done" then inr EmptyString
       else inl ENOENT;
     path_exists := fun p =>
       String.eqb p "/r/endpoints/.done" || String.eqb p "/r/endpoints/a"
       || String.eqb p "/r/endpoints/b" || String.eqb p "/r/endpoints";
     path_lexists := fun p =>
       String.eqb p "/r/endpoints/.done" || String.eqb p "/r/endpoints/a"
       || String.eqb p "/r/endpoints/b" || String.eqb p "/r/endpoints";
     path_isdir := fun p => String.eqb p "/r/endpoints" |}.

(* request texts, written without their quotation marks *)
Definition subscribe_request : string := "{topic: /endpoints}".
Definition snapshot_request : string := "{topic: /endpoints, snapshot: true}".
Definition unknown_topic_request : string := "{topic: /nosuch}".
Definition no_topic_request : string := "{since: 5}".

Definition the_world : world :=
  {| fs := disk;
     sqlite := fun p =>
       if String.eqb p "/r/sow.db" then Some [(50, "/endpoints/a", "A1")]
       else if String.eqb p "/r/old.db" then Some [(60, "/endpoints/.tmp", "T")]
       else None;
     time_time := (2001 # 2)%Q;
     utcnow := "2017-01-01T00:00:00";
     json_loads := fun s =>
       if String.eqb s subscribe_request then Some (JObj [("topic", JStr "/endpoints")])
       else if String.eqb s snapshot_request then
         Some (JObj [("topic", JStr "/endpoints"); ("snapshot", JBool true)])
       else if String.eqb s unknown_topic_request then Some (JObj [("topic", JStr "/nosuch")])
       else if String.eqb s no_topic_request then Some (JObj [("since", JInt 5)])
       else None |}.

Definition open_conn : handler_obj := {| ws_connection := true; wire := [] |}.

(* a fresh hub and two open connections *)
Definition start (db : option string) : state :=
  {| hub := new_pubsub "/r" {[ "/endpoints" := echo_impl db ]};
     conns := {[ 1%nat := open_conn; 2%nat := open_conn ]} |}.

Definition YAMLError : exn :=
  Exn (ExceptionSub "YAMLError") None "mapping values are not allowed here".

(* a topic that parses the content of the file, as the identity-group
   topic does with yaml.load *)
Definition yaml_impl : topic_impl :=
  {| subscribe := fun _ => Ret [("/endpoints", "*")];
     on_event := fun path _ content =>
       match content with
       | Some "A2" => Raise YAMLError
       | Some "B" => Raise (Exn (StandardErrorSub "ValueError") None "invalid literal")
       | _ => Ret (Some [("name", JStr path)])
       end;
     sow_db := None |}.

(* two live subscribers of [/r/endpoints]: the first with the parsing
   topic, the second with the echoing one *)
Definition two_subscribers : state :=
  {| hub :=
       {| root := "/r";
          impl := {[ "/endpoints" := echo_impl None ]};
          handlers :=
            {[ "/r/endpoints" :=
                 [ {| sub_pattern := "*"; sub_handler := 1%nat; sub_impl := yaml_impl |};
                   {| sub_pattern := "*"; sub_handler := 2%nat;
                      sub_impl := echo_impl None |} ] ]};
          watcher := ["/r/endpoints"];
          dispatched := [] |};
     conns := {[ 1%nat := open_conn; 2%nat := open_conn ]} |}.

(* the same world a moment later: [a] has been unlinked after it was
   stat'ed; or it is there and may not be read (EACCES) *)
Definition world_with_read (answer : string -> Z + string) (now : Q) : world :=
  {| fs := {| realpath := realpath disk; listdir := listdir disk;
              stat_mtime := stat_mtime disk; read_file := answer;
              path_exists := path_exists disk; path_lexists := path_lexists disk;
              path_isdir := path_isdir disk |};
     sqlite := sqlite the_world;
     time_time := now;
     utcnow := utcnow the_world;
     json_loads := json_loads the_world |}.

Definition world_after_unlink : world :=
  world_with_read
    (fun p => if String.eqb p "/r/endpoints/a" then inl ENOENT else read_file disk p)
    (2001 # 2).

Definition world_no_permission : world :=
  world_with_read
    (fun p => if String.eqb p "/r/endpoints/a" then inl 13 else read_file disk p)
    (2001 # 2).

(* a topic whose resolver demands a member the request does not have *)
Definition strict_impl : topic_impl :=
  {| subscribe := fun message =>
       match getitem message "identity-group" with
       | Ret _ => Ret [("/endpoints", "*")]
       | Raise _ =>
           Raise (Exn (ExceptionSub "ValidationError") None
                    "'identity-group' is a required property")
       end;
     on_event := fun path _ _ => Ret (Some [("name", JStr path)]);
     sow_db := None |}.

Definition strict_world : world := the_world.

Definition strict_start : state :=
  {| hub := new_pubsub "/r" {[ "/endpoints" := strict_impl ]};
     conns := {[ 1%nat := open_conn ]} |}.

(* two live subscribers of [/r/endpoints], one for [a*], one for [b*] *)
Definition one_pattern_each : state :=
  {| hub :=
       {| root := "/r";
          impl := {[ "/endpoints" := echo_impl None ]};
          handlers :=
            {[ "/r/endpoints" :=
                 [ {| sub_pattern := "a*"; sub_handler := 1%nat;
                      sub_impl := echo_impl None |};
                   {| sub_pattern := "b*"; sub_handler := 2%nat;
                      sub_impl := echo_impl None |} ] ]};
          watcher := ["/r/endpoints"];
          dispatched := [] |};
     conns := {[ 1%nat := open_conn; 2%nat := open_conn ]} |}.

End Scenario.

(** ** Proof support *)

#[global] Arguments write_message : simpl never.
#[global] Arguments close : simpl never.
#[global] Arguments send_error_msg : simpl never.
#[global] Arguments handlers_getitem : simpl never.
#[global] Arguments handlers_setitem : simpl never.
#[global] Arguments notify_sub : simpl never.
#[global] Arguments _notify : simpl never.
#[global] Arguments _handle : simpl never.
#[global] Arguments _publish : simpl never.
#[global] Arguments _sow : simpl never.
#[global] Arguments register : simpl never.
#[global] Arguments gc_dir : simpl never.
#[global] Arguments set_conn : simpl never.
#[global] Arguments fnmatch : simpl never.

Ltac run_monad :=
  unfold lift in *;
  unfold bind, ret, raise, try_except, modify, get_state in *.

(** What the filesystem scan of a replay makes of a file it can read:
    the record [r], when the modification time is not before [since]. *)
Definition scanned (w : world) (root_len : nat) (since : json)
    (filename : string) (r : record) : Prop :=
  exists mtime content,
    stat_mtime (fs w) filename = inr mtime /\
    read_file (fs w) filename = inr content /\
    float_ge mtime since = true /\
    r = (int_of_float mtime, drop_prefix root_len filename, content).

(* os.stat or open fails on the file, and not because the file is gone *)
Definition unreadable (w : world) (filename : string) : Prop :=
  (exists errno, stat_mtime (fs w) filename = inl errno /\ errno <> ENOENT) \/
  (exists mtime errno,
     stat_mtime (fs w) filename = inr mtime /\
     read_file (fs w) filename = inl errno /\ errno <> ENOENT).


(* the hub after one turn of the loop of [_gc], on directory [d] whose
   live subscriptions are [live] *)
Definition collected (d : string) (live : list subscription) (p : pubsub) : pubsub :=
  {| root := root p;
     impl := impl p;
     handlers := <[d := live]> (handlers p);
     watcher := match live with
                | [] => remove_dir d (watcher p)
                | _ => watcher p
                end;
     dispatched := dispatched p |}.

(** A directory is watched exactly when its bucket holds a subscription
    (live or not yet collected). *)
Definition watched_iff_subscribed (p : pubsub) : Prop :=
  forall d, In d (watcher p) <-> exists s l, handlers p !! d = Some (s :: l).

(* a name with no slash in it: the last component of a path *)
Fixpoint no_slash (s : string) : bool :=
  match s with
  | EmptyString => true
  | String c r => negb (Ascii.eqb c slash) && no_slash r
  end.

(** The identity-group topic on the hub of the scenarios: a schema that
    accepts every request, a YAML reader that takes every document for
    an empty mapping but one; a subscriber of the group [web]. *)
Module IdentityScenario.

Definition identity_api : topic_impl :=
  IdentityGroup.api
    (fun _ => Ret tt)
    (fun message content =>
       if String.eqb content "a: b: c" then Raise Scenario.YAMLError
       else Ret message).

Definition web_subscriber : state :=
  {| hub :=
       {| root := "/r";
          impl := {[ "/identity-groups" := identity_api ]};
          handlers :=
            {[ "/r/identity-groups/web" :=
                 [ {| sub_pattern := "*"; sub_handler := 1%nat;
                      sub_impl := identity_api |} ] ]};
          watcher := ["/r/identity-groups/web"];
          dispatched := [] |};
     conns := {[ 1%nat := Scenario.open_conn ]} |}.

Definition paths : list string :=
  ["/r"; "/r/identity-groups"; "/r/identity-groups/web"; "/r/identity-groups/db";
   "/r/identity-groups/web/1"; "/r/identity-groups/web/2";
   "/r/identity-groups/db/7"].

(** Under the root [/r], the groups [web] (identities 1 and 2) and [db]
    (identity 7), all with empty files. *)
Definition disk : filesystem :=
  {| realpath := fun p => p;
     listdir := fun d =>
       if String.eqb d "/r/identity-groups" then Some ["web"; "db"]
       else if String.eqb d "/r/identity-groups/web" then Some ["1"; "2"]
       else if String.eqb d "/r/identity-groups/db" then Some ["7"]
       else None;
     stat_mtime := fun p =>
       if String.eqb p "/r/identity-groups/web/1" then inr (10 # 1)%Q
       else if String.eqb p "/r/identity-groups/web/2" then inr (30 # 1)%Q
       else if String.eqb p "/r/identity-groups/db/7" then inr (20 # 1)%Q
       else inl ENOENT;
     read_file := fun p =>
       if String.eqb p "/r/identity-groups/web/1" then inr EmptyString
       else if String.eqb p "/r/identity-groups/web/2" then inr EmptyString
       else if String.eqb p "/r/identity-groups/db/7" then inr EmptyString
       else inl ENOENT;
     path_exists := fun p => existsb (String.eqb p) paths;
     path_lexists := fun p => existsb (String.eqb p) paths;
     path_isdir := fun p =>
       String.eqb p "/r" || String.eqb p "/r/identity-groups"
       || String.eqb p "/r/identity-groups/web"
       || String.eqb p "/r/identity-groups/db" |}.

(* the request of a client that names no group, written without its
   quotation marks *)
Definition every_group_request : string := "{topic: /identity-groups}".

Definition the_world : world :=
  {| fs := disk;
     sqlite := fun _ => None;
     time_time := (2001 # 2)%Q;
     utcnow := "2017-01-01T00:00:00";
     json_loads := fun s =>
       if String.eqb s every_group_request
       then Some (JObj [("topic", JStr "/identity-groups")])
       else None |}.

Definition start : state :=
  {| hub := new_pubsub "/r" {[ "/identity-groups" := identity_api ]};
     conns := {[ 1%nat := Scenario.open_conn ]} |}.

(* two live subscribers of the group [web] *)
Definition two_web_subscribers : state :=
  {| hub :=
       {| root := "/r";
          impl := {[ "/identity-groups" := identity_api ]};
          handlers :=
            {[ "/r/identity-groups/web" :=
                 [ {| sub_pattern := "*"; sub_handler := 1%nat;
                      sub_impl := identity_api |};
                   {| sub_pattern := "*"; sub_handler := 2%nat;
                      sub_impl := identity_api |} ] ]};
          watcher := ["/r/identity-groups/web"];
          dispatched := [] |};
     conns := {[ 1%nat := Scenario.open_conn; 2%nat := Scenario.open_conn ]} |}.

End IdentityScenario.

(** A topic that cannot read the file [b], on the hub of the scenarios;
    its only connection is open. *)
Module ReplayScenario.



End ReplayScenario.

(** * Properties *)

(** ** The Python primitives on examples *)

Example basename_ex : basename "/r/endpoints/.done" = ".done".
Proof. reflexivity. Qed.
Example dirname_ex : dirname "/r/endpoints/.done" = "/r/endpoints".
Proof. reflexivity. Qed.
Example join_ex : path_join "/r" (lstrip_slash "/endpoints") = "/r/endpoints".
Proof. reflexivity. Qed.
Example fnmatch_star : fnmatch "svc1" "*" = true.
Proof. reflexivity. Qed.
Example fnmatch_literal : fnmatch "svc2" "svc1" = false.
Proof. reflexivity. Qed.
Example fnmatch_class : fnmatch "svc2" "sv[a-c]?" = true.
Proof. reflexivity. Qed.
Example fnmatch_negated_class : fnmatch "svc2" "s*[!0-9]" = false.
Proof. reflexivity. Qed.
Example int_of_float_truncates : int_of_float (-7 # 2) = (-3)%Z.
Proof. reflexivity. Qed.
Example fnmatch_reversed_range :
  fnmatch_fnmatch "b" "[z-a]" = Raise re_error /\
  fnmatch_fnmatch "b" "[!z-a]" = Raise re_error /\
  fnmatch_fnmatch "b" "[a-z]" = Ret true /\
  fnmatch_fnmatch "[z-a" "[z-a" = Ret true.
Proof. repeat split; reflexivity. Qed.
Example glob_hides_dotfiles :
  glob_glob Scenario.the_world "/r/endpoints/*"
  = Ret ["/r/endpoints/a"; "/r/endpoints/b"].
Proof. reflexivity. Qed.
Example glob_shows_dotfiles :
  glob_glob Scenario.the_world "/r/endpoints/.*" = Ret ["/r/endpoints/.done"].
Proof. reflexivity. Qed.
Example glob_by_name :
  glob_glob Scenario.the_world "/r/endpoints/a" = Ret ["/r/endpoints/a"] /\
  glob_glob Scenario.the_world "/r/endpoints/c" = Ret [].
Proof. split; reflexivity. Qed.
Example glob_through_directories :
  glob_glob IdentityScenario.the_world "/r/identity-groups/*/*"
  = Ret ["/r/identity-groups/web/1"; "/r/identity-groups/web/2";
         "/r/identity-groups/db/7"] /\
  glob_glob IdentityScenario.the_world "/r/identity-groups/*/7"
  = Ret ["/r/identity-groups/db/7"] /\
  glob_glob IdentityScenario.the_world "/r/identity-groups/w*/"
  = Ret ["/r/identity-groups/web/"].
Proof. repeat split; reflexivity. Qed.
Example glob_raises_where_it_lists :
  glob_glob Scenario.the_world "/r/endpoints/[z-a]" = Raise re_error /\
  glob_glob Scenario.the_world "/r/nowhere/[z-a]" = Ret [].
Proof. split; reflexivity. Qed.
Example sqlite_glob_sets :
  sqlite_glob "/e/[^a]*" "/e/b1" = true /\
  sqlite_glob "/e/[!a]" "/e/b" = false /\
  sqlite_glob "/e/[z-a]" "/e/m" = false /\
  sqlite_glob "/e/[" "/e/[" = false /\
  sqlite_glob "/e/*" "/e/.tmp" = true.
Proof. repeat split; reflexivity. Qed.

(** ** glob: the recursion ends *)

Lemma rsplit_slash_app p : p = fst (rsplit_slash p) ++ snd (rsplit_slash p).
Proof.
  induction p as [|c p IH]; [done |]. cbn [rsplit_slash].
  destruct (rsplit_slash p) as [h t]. cbn [fst snd] in IH.
  destruct h as [|c' h].
  - simpl in IH. subst p. by destruct (Ascii.eqb c slash).
  - cbn [fst snd]. rewrite IH at 1. reflexivity.
Qed.

Lemma rstrip_slash_length h :
  (String.length (rstrip_slash h) <= String.length h)%nat.
Proof.
  induction h as [|c h IH]; [done |]. cbn [rstrip_slash].
  destruct (rstrip_slash h) as [|c' h'].
  - destruct (Ascii.eqb c slash); simpl; lia.
  - simpl in *. lia.
Qed.

Lemma rstrip_slash_fixed h :
  String.length (rstrip_slash h) = String.length h -> rstrip_slash h = h.
Proof.
  induction h as [|c h IH]; [done |]. cbn [rstrip_slash].
  pose proof (rstrip_slash_length h) as Hle.
  destruct (rstrip_slash h) as [|c' h'] eqn:E.
  - destruct (Ascii.eqb c slash); simpl; [lia |].
    intros Hl. destruct h; [done | simpl in Hl; lia].
  - simpl. intros Hl. rewrite IH; [done | simpl; lia].
Qed.

Lemma length_append a b :
  String.length (a ++ b) = (String.length a + String.length b)%nat.
Proof. induction a as [|c a IH]; simpl; [done | by rewrite IH]. Qed.

Lemma append_empty_r a : a ++ EmptyString = a.
Proof.
  induction a as [|c a IH]; [done |].
  change (String c (a ++ EmptyString) = String c a). by rewrite IH.
Qed.

(* the directory part of a pathname is the pathname or is shorter *)
Lemma path_split_shorter p :
  fst (path_split p) = p \/
  (String.length (fst (path_split p)) < String.length p)%nat.
Proof.
  unfold path_split. pose proof (rsplit_slash_app p) as Hp.
  destruct (rsplit_slash p) as [h t]. cbn [fst snd] in *.
  assert (Hl : String.length p = (String.length h + String.length t)%nat)
    by (rewrite Hp at 1; apply length_append).
  pose proof (rstrip_slash_length h) as Hs.
  destruct (rstrip_slash h) as [|c' h'] eqn:E; cbn [fst].
  - destruct t as [|c t]; [left | right; simpl in Hl; lia].
    by rewrite Hp, append_empty_r.
  - rewrite <- E in *. destruct t as [|c t]; [| right; simpl in Hl; lia].
    destruct (Nat.eq_dec (String.length (rstrip_slash h)) (String.length h))
      as [Heq | Hne]; [| right; simpl in Hl; lia].
    left. by rewrite (rstrip_slash_fixed h Heq), Hp, append_empty_r.
Qed.

(* the step asks its recursive call about shorter pathnames only *)
Lemma iglob_step_ext w f g p :
  (forall d, (String.length d < String.length p)%nat -> f d = g d) ->
  iglob_step w f p = iglob_step w g p.
Proof.
  intros Hfg. unfold iglob_step.
  pose proof (path_split_shorter p) as Hs.
  destruct (path_split p) as [d b]. cbn [fst] in Hs.
  destruct (negb (has_magic p)); [done |].
  destruct (String.eqb d EmptyString); [done |].
  destruct (String.eqb_spec d p) as [Heq | Hne]; cbn [negb andb]; [done |].
  destruct (has_magic d); [| done].
  destruct Hs as [Hs | Hs]; [done |]. by rewrite (Hfg d Hs).
Qed.

(** The fuel that [glob_glob] gives is enough: with any amount that is
    not below the length of the pathname, [iglob] computes the same. *)
Lemma iglob_fuel w n :
  forall m p, (String.length p <= n)%nat -> (String.length p <= m)%nat ->
  iglob n w p = iglob m w p.
Proof.
  induction n as [|n IH]; intros m p Hn Hm.
  - destruct m; cbn [iglob]; apply iglob_step_ext; intros d Hd; lia.
  - destruct m as [|m]; cbn [iglob]; apply iglob_step_ext; intros d Hd; [lia |].
    apply IH; lia.
Qed.

Lemma glob_glob_fuel w n p :
  (String.length p <= n)%nat -> iglob n w p = glob_glob w p.
Proof. intros Hn. unfold glob_glob. by apply iglob_fuel. Qed.

(** ** The connection *)

Lemma active_set_conn st h c h' :
  active (set_conn h c st) h' = if decide (h = h') then ws_connection c else active st h'.
Proof.
  unfold active, set_conn; simpl.
  rewrite lookup_total_insert. by destruct (decide (h = h')).
Qed.

Lemma set_conn_twice h c1 c2 st : set_conn h c2 (set_conn h c1 st) = set_conn h c2 st.
Proof. unfold set_conn; simpl. by rewrite insert_insert_eq. Qed.

Lemma conn_set_conn st h c h' :
  conns (set_conn h c st) !!! h' = if decide (h = h') then c else conns st !!! h'.
Proof. unfold set_conn; simpl. apply lookup_total_insert. Qed.

Lemma send_error_msg_live w h s st :
  active st h = true ->
  send_error_msg w h s true st = (Ret tt, set_conn h (errored w s (conns st !!! h)) st).
Proof.
  intros Hlive. unfold send_error_msg, write_message, close, errored; run_monad.
  unfold active in Hlive. rewrite Hlive.
  rewrite conn_set_conn. destruct (decide (h = h)) as [_|]; [|done]. simpl.
  rewrite set_conn_twice. by rewrite <- app_assoc.
Qed.


(** ** What a computation leaves unchanged *)

Lemma preserves_ret {A} P (a : A) : preserves P (ret a).
Proof. by intros st H. Qed.

Lemma preserves_raise {A} P e : preserves P (@raise A e).
Proof. by intros st H. Qed.

Lemma preserves_lift {A} P (o : outcome A) : preserves P (lift o).
Proof. destruct o; [apply preserves_ret | apply preserves_raise]. Qed.

Lemma preserves_get_state P : preserves P get_state.
Proof. by intros st H. Qed.

Lemma preserves_bind {A B} P (m : M A) (k : A -> M B) :
  preserves P m -> (forall a, preserves P (k a)) -> preserves P (bind m k).
Proof.
  intros Hm Hk st H. unfold bind. specialize (Hm st H).
  destruct (m st) as [[a|e] st']; simpl in *; [by apply Hk | done].
Qed.

Lemma preserves_try_except {A} P (m : M A) catches h :
  preserves P m -> (forall e, preserves P (h e)) -> preserves P (try_except m catches h).
Proof.
  intros Hm Hh st H. unfold try_except. specialize (Hm st H).
  destruct (m st) as [[a|e] st']; simpl in *; [done |].
  destruct (catches e); [by apply Hh | done].
Qed.

Lemma preserves_for_each {A} P (l : list A) (body : A -> M unit) :
  (forall x, In x l -> preserves P (body x)) -> preserves P (for_each l body).
Proof.
  induction l as [|x l IH]; intros Hb; simpl.
  - apply preserves_ret.
  - apply preserves_bind; [apply Hb; by left |].
    intros _. apply IH. intros y Hy. apply Hb. by right.
Qed.

Lemma preserves_if {A} P (b : bool) (m1 m2 : M A) :
  preserves P m1 -> preserves P m2 -> preserves P (if b then m1 else m2).
Proof. by destruct b. Qed.

(* the handler calls touch no field of the hub *)
Lemma write_message_hub h f st : hub (snd (write_message h f st)) = hub st.
Proof. unfold write_message. by destruct (ws_connection _). Qed.

Lemma close_hub h st : hub (snd (close h st)) = hub st.
Proof. unfold close. by destruct (ws_connection _). Qed.

(* the handler calls touch no other handler *)
Lemma write_message_other h f st h' :
  h <> h' -> conns (snd (write_message h f st)) !!! h' = conns st !!! h'.
Proof.
  intros Hne. unfold write_message. destruct (ws_connection _); [|done].
  cbn [snd]. rewrite conn_set_conn. by destruct (decide (h = h')).
Qed.

Lemma close_other h st h' :
  h <> h' -> conns (snd (close h st)) !!! h' = conns st !!! h'.
Proof.
  intros Hne. unfold close. destruct (ws_connection _); [|done].
  cbn [snd]. rewrite conn_set_conn. by destruct (decide (h = h')).
Qed.

Lemma frames_out_calls_keep h P : frames_out h P -> calls_keep h P.
Proof.
  intros HP. split.
  - intros f st H. apply (HP st); [apply write_message_hub | | done].
    intros h' Hne. by apply write_message_other.
  - intros st H. apply (HP st); [apply close_hub | | done].
    intros h' Hne. by apply close_other.
Qed.

Lemma preserves_send_error_msg w h s b P :
  calls_keep h P -> preserves P (send_error_msg w h s b).
Proof.
  intros [Hw Hc]. unfold send_error_msg. apply preserves_bind.
  - apply Hw.
  - intros _. apply preserves_if; [apply Hc | apply preserves_ret].
Qed.

Lemma preserves_publish w h impl item P :
  calls_keep h P -> preserves P (_publish w h impl item).
Proof.
  intros HP. unfold _publish. destruct item as [[when path] content].
  apply preserves_try_except.
  - apply preserves_bind; [apply preserves_lift |].
    intros [body|]; [apply HP | apply preserves_ret].
  - intros e. by apply preserves_send_error_msg.
Qed.

Lemma preserves_publish_merged w h impl prev items P :
  calls_keep h P -> preserves P (publish_merged w h impl prev items).
Proof.
  intros HP. revert prev. induction items as [|item r IH]; intros prev; simpl.
  - apply preserves_ret.
  - destruct (same_path prev (rec_path item)); [apply IH |].
    apply preserves_bind; [by apply preserves_publish | intros _; apply IH].
Qed.

Lemma preserves_sow w directory pattern since h impl P :
  calls_keep h P -> preserves P (_sow w directory pattern since h impl).
Proof.
  intros HP. unfold _sow.
  apply preserves_bind; [apply preserves_get_state | intros st0].
  apply preserves_bind; [apply preserves_lift | intros [db_records fs_records]].
  by apply preserves_publish_merged.
Qed.

Lemma preserves_notify_sub w root_len path filename op content when s P :
  calls_keep (sub_handler s) P ->
  preserves P (notify_sub w root_len path filename op content when s).
Proof.
  intros HP. unfold notify_sub.
  apply preserves_bind; [apply preserves_get_state | intros st0].
  apply preserves_if; [apply preserves_ret |].
  apply preserves_bind; [apply preserves_lift | intros matched].
  apply preserves_if; [| apply preserves_ret].
  apply preserves_try_except.
  - apply preserves_bind; [apply preserves_lift |].
    intros [body|]; [apply HP | apply preserves_ret].
  - intros e. by apply preserves_send_error_msg.
Qed.

Lemma preserves_handlers_getitem d P :
  (forall st, handlers (hub st) !! d = None -> P st ->
     P (set_hub (fun p => set_handlers (<[d := []]> (handlers p)) p) st)) ->
  preserves P (handlers_getitem d).
Proof.
  intros HP st H. unfold handlers_getitem.
  destruct (handlers (hub st) !! d) eqn:E; [done | by apply HP].
Qed.

(* the loop of [_notify], over any bucket *)
Lemma preserves_notify_loop w root_len path filename op content when subs P :
  (forall h, calls_keep h P) ->
  preserves P (for_each subs (notify_sub w root_len path filename op content when)).
Proof.
  intros HP. apply preserves_for_each. intros s _. by apply preserves_notify_sub.
Qed.

(** [_notify] records the event it is given, and nothing else, in the
    history of dispatched events. *)
Lemma notify_dispatched w path op content when st :
  dispatched (hub (snd (_notify w path op content when st)))
  = (dispatched (hub st) ++ [(path, op, content, when)])%list.
Proof.
  unfold _notify, bind at 1, modify. cbn [fst snd].
  set (st1 := set_hub _ st).
  set (P := fun s : state => dispatched (hub s) = dispatched (hub st1)).
  assert (HP : forall h, calls_keep h P).
  { intros h. apply frames_out_calls_keep. intros s s' Hh _ Hs. unfold P. by rewrite Hh. }
  change (P (snd ((st0 <- get_state ;;
    subs <- handlers_getitem (dirname path) ;;
    for_each subs (notify_sub w (String.length (root (hub st0))) path
                     (basename path) op content when)) st1))).
  apply preserves_bind; [apply preserves_get_state | intros st0 | done].
  apply preserves_bind.
  - apply preserves_handlers_getitem. by intros s _ Hs.
  - intros subs. by apply preserves_notify_loop.
Qed.

(** ** C1: replay of a path held by both sources *)

(** C1.  The historical store has [/endpoints/a] at time 50; the
    directory has [b] (mtime 70.5) and again [a] (mtime 100).  The merge
    puts [b] between the two records of [a], the comparison with the
    previous path sees nothing, and the replay for [since = 0] sends
    [/endpoints/a] twice. *)
Theorem sow_replays_path_twice :
  let impl := Scenario.echo_impl (Some "sow.db") in
  let run := register Scenario.the_world "/endpoints" "*" 1%nat impl (JInt 0)
               (Scenario.start (Some "sow.db")) in
  sow_sources Scenario.the_world "/r" "/r/endpoints" "*" (JInt 0) impl
  = Ret ([(50, "/endpoints/a", "A1")],
         [(70, "/endpoints/b", "B"); (100, "/endpoints/a", "A2")]) /\
  fst run = Ret tt /\
  wire (conns (snd run) !!! 1%nat)
  = [Written (Message [("name", JStr "/endpoints/a")] (50 # 1));
     Written (Message [("name", JStr "/endpoints/b")] (70 # 1));
     Written (Message [("name", JStr "/endpoints/a")] (100 # 1))].
Proof. vm_compute. repeat split; reflexivity. Qed.

(** ** C1, the part that holds: no replayed record is older than [since] *)

Lemma int_of_float_ge (T : Z) (x : Q) :
  Qle_bool (inject_Z T) x = true -> T <= int_of_float x.
Proof.
  rewrite Qle_bool_iff. unfold Qle, inject_Z, int_of_float. destruct x as [n d].
  cbn [Qnum Qden]. intros H. rewrite Z.mul_1_r in H.
  destruct (Z_le_gt_dec 0 n) as [Hn | Hn].
  - rewrite Z.quot_div_nonneg by lia. apply Z.div_le_lower_bound; lia.
  - rewrite <- (Z.opp_involutive n) at 1. rewrite Z.quot_opp_l by lia.
    rewrite Z.quot_div_nonneg by lia.
    assert ((- n) / Z.pos d <= - T); [| lia].
    apply Z.div_le_upper_bound; lia.
Qed.

Lemma insert_sorted_In {A} (leb : A -> A -> bool) x l y :
  In y (insert_sorted leb x l) <-> y = x \/ In y l.
Proof.
  induction l as [|z l IH]; simpl.
  - split; [intros [->|[]]; by left | intros [->|[]]; by left].
  - destruct (leb x z); simpl; [| rewrite IH]; intuition congruence.
Qed.

Lemma sort_by_In {A} (leb : A -> A -> bool) l y :
  In y (sort_by leb l) <-> In y l.
Proof.
  induction l as [|x l IH]; simpl; [done |].
  rewrite insert_sorted_In, IH. intuition congruence.
Qed.

Lemma heapq_merge_In a : forall b y,
  In y (heapq_merge a b) <-> In y a \/ In y b.
Proof.
  induction a as [|x a IHa]; intros b y.
  - destruct b; simpl; tauto.
  - induction b as [|z b IHb].
    + simpl. tauto.
    + cbn [heapq_merge]. destruct (record_leb x z).
      * cbn [In]. rewrite IHa. cbn [In]. tauto.
      * cbn [In]. cbn [heapq_merge] in IHb. rewrite IHb. cbn [In]. tauto.
Qed.

Lemma fs_sow_items_since w root_len (T : Z) files items :
  fs_sow_items w root_len (JInt T) files = Ret items ->
  forall r, In r items -> T <= rec_when r.
Proof.
  revert items. induction files as [|f files IH]; intros items; simpl.
  - intros [= <-] r [].
  - destruct (fs_sow_items w root_len (JInt T) files) as [its|].
    2:{ destruct (fs_sow_item w root_len (JInt T) f); discriminate. }
    specialize (IH its eq_refl).
    unfold fs_sow_item, os_stat, open_read.
    destruct (stat_mtime (fs w) f) as [errno | mtime]; cbn [obind].
    + destruct (is_IOError_or_OSError _); [| discriminate].
      destruct (negb _); [discriminate |]. cbn [obind]. by intros [= <-].
    + destruct (read_file (fs w) f) as [errno | content]; cbn [obind].
      * destruct (is_IOError_or_OSError _); [| discriminate].
        destruct (negb _); [discriminate |]. cbn [obind]. by intros [= <-].
      * destruct (float_ge mtime (JInt T)) eqn:Hge; cbn [obind];
          intros [= <-]; [| done].
        intros r [<- | Hin]; [| by apply IH].
        by apply int_of_float_ge.
Qed.

(** Every record that enters the merge of a replay with an integer
    [since], from the historical store or from the scan, has a timestamp
    that is not below it. *)
Lemma sow_sources_since w r directory pattern (T : Z) ti db_records fs_records :
  sow_sources w r directory pattern (JInt T) ti = Ret (db_records, fs_records) ->
  forall item, In item (heapq_merge db_records fs_records) -> T <= rec_when item.
Proof.
  unfold sow_sources, _get_fs_sow. intros Hs item Hin.
  destruct (glob_glob w (path_join directory pattern)) as [files|];
    cbn [obind] in Hs; [| discriminate].
  destruct (fs_sow_items w (String.length r) (JInt T) files)
    as [items|] eqn:Hfs; cbn [obind] in Hs; [| discriminate].
  apply heapq_merge_In in Hin.
  assert (Hdb : forall dbpath db_glob rows,
            sow_select w dbpath db_glob (JInt T) = Ret rows ->
            forall x, In x rows -> T <= rec_when x).
  { intros dbpath db_glob rows. unfold sow_select.
    destruct (sqlite w dbpath) as [table|]; [| discriminate].
    destruct (sql_bind (JInt T)); cbn [obind]; [| discriminate].
    intros [= <-] x Hx. apply sort_by_In in Hx. apply filter_In in Hx as [_ Hx].
    apply andb_true_iff in Hx as [_ Hx]. unfold sql_ge in Hx. simpl in Hx.
    by apply Z.leb_le. }
  destruct (sow_db ti) as [db|].
  - destruct (negb (String.eqb db EmptyString)).
    + destruct (sow_select w _ _ (JInt T)) as [rows|] eqn:Hsel; cbn [obind] in Hs;
        [| discriminate].
      injection Hs as <- <-. destruct Hin as [Hin | Hin].
      * by apply (Hdb _ _ _ Hsel).
      * apply sort_by_In in Hin. by apply (fs_sow_items_since _ _ _ _ _ Hfs).
    + cbn [obind] in Hs. injection Hs as <- <-. destruct Hin as [[] | Hin].
      apply sort_by_In in Hin. by apply (fs_sow_items_since _ _ _ _ _ Hfs).
  - cbn [obind] in Hs. injection Hs as <- <-. destruct Hin as [[] | Hin].
    apply sort_by_In in Hin. by apply (fs_sow_items_since _ _ _ _ _ Hfs).
Qed.

(** What the comparison with [prev_path] does achieve: the loop
    publishes the records of [published], among which no record follows
    a record of the same path. *)
Lemma publish_merged_published w h ti prev items :
  publish_merged w h ti prev items
  = for_each (published prev items) (_publish w h ti).
Proof.
  revert prev. induction items as [|item r IH]; intros prev; simpl; [done |].
  destruct (same_path prev (rec_path item)); [apply IH |].
  simpl. by rewrite IH.
Qed.

Lemma published_no_repeat prev items : no_repeat prev (published prev items).
Proof.
  revert prev. induction items as [|item r IH]; intros prev; simpl; [done |].
  destruct (same_path prev (rec_path item)) eqn:E; [apply IH |].
  simpl. split; [done | apply IH].
Qed.

(** ** What [register] and [_gc] do to the hub *)

Lemma sow_hub w directory pattern since h impl st :
  hub (snd (_sow w directory pattern since h impl st)) = hub st.
Proof.
  apply (preserves_sow w directory pattern since h impl
           (fun s => hub s = hub st)); [| done].
  apply frames_out_calls_keep. intros s s' Hh _ Hs. congruence.
Qed.

Lemma register_run w directory pattern h ti since st :
  let d := normalized w (root (hub st)) directory in
  register w directory pattern h ti since st
  = _sow w d pattern since h ti
      {| hub := registered d pattern h ti (hub st); conns := conns st |}.
Proof.
  intros d. unfold registered.
  unfold register, handlers_getitem, handlers_setitem. run_monad. cbv beta iota.
  fold d. clearbody d.
  destruct (handlers (hub st) !! d) as [b|] eqn:Hb; cbn [default from_option id].
  - destruct b as [|s0 b]; simpl; rewrite Hb; simpl; reflexivity.
  - simpl. rewrite lookup_insert_eq. simpl.
    unfold set_hub, set_watcher, set_handlers; simpl. by rewrite insert_insert_eq.
Qed.

Lemma register_hub w directory pattern h ti since st :
  hub (snd (register w directory pattern h ti since st))
  = registered (normalized w (root (hub st)) directory) pattern h ti (hub st).
Proof. rewrite register_run. cbv zeta. by rewrite sow_hub. Qed.

Lemma gc_dir_run d st :
  let bucket := default [] (handlers (hub st) !! d) in
  let live := live_subs (conns st) bucket in
  gc_dir d st
  = (Ret tt,
     {| hub := {| root := root (hub st);
                  impl := impl (hub st);
                  handlers := <[d := live]> (handlers (hub st));
                  watcher := match live with
                             | [] => remove_dir d (watcher (hub st))
                             | _ => watcher (hub st)
                             end;
                  dispatched := dispatched (hub st) |};
        conns := conns st |}).
Proof.
  intros bucket live. subst live bucket.
  unfold gc_dir, handlers_getitem, handlers_setitem, live_subs, active.
  run_monad. cbv beta iota.
  destruct (handlers (hub st) !! d) as [b|] eqn:Hb;
    cbn [default from_option id]; cbv beta iota.
  - destruct (List.filter _ b); reflexivity.
  - simpl. unfold set_hub, set_handlers; simpl. by rewrite insert_insert_eq.
Qed.

(** [watch_inv] is kept by everything that happens to a hub. *)

Lemma watch_inv_register w directory pattern h ti since st :
  watch_inv (hub st) ->
  watch_inv (hub (snd (register w directory pattern h ti since st))).
Proof.
  intros [Hnd Hne]. rewrite register_hub. unfold registered.
  set (d := normalized w (root (hub st)) directory).
  destruct (handlers (hub st) !! d) as [b|] eqn:Hb; cbn [default from_option id].
  - destruct b as [|s0 b]; split; cbn [watcher handlers].
    + apply NoDup_cons. split; [| done].
      intros Hin. apply list_elem_of_In in Hin.
      destruct (Hne d Hin) as (s & l & Hl). congruence.
    + intros d' Hin. destruct (decide (d' = d)) as [->|Hd].
      * rewrite lookup_insert_eq. eauto.
      * rewrite lookup_insert_ne by done. apply Hne.
        destruct Hin as [Heq | Hin]; [congruence | done].
    + done.
    + intros d' Hin. destruct (decide (d' = d)) as [->|Hd].
      * rewrite lookup_insert_eq. simpl. eauto.
      * rewrite lookup_insert_ne by done. by apply Hne.
  - split; cbn [watcher handlers].
    + apply NoDup_cons. split; [| done].
      intros Hin. apply list_elem_of_In in Hin.
      destruct (Hne d Hin) as (s & l & Hl). congruence.
    + intros d' Hin. destruct (decide (d' = d)) as [->|Hd].
      * rewrite lookup_insert_eq. simpl. eauto.
      * rewrite lookup_insert_ne by done. apply Hne.
        destruct Hin as [Heq | Hin]; [congruence | done].
Qed.

Lemma remove_dir_In d w d' : In d' (remove_dir d w) <-> In d' w /\ d' <> d.
Proof.
  unfold remove_dir. rewrite filter_In. split; intros [H1 H2]; split; try done.
  - intros ->. by rewrite String.eqb_refl in H2.
  - apply negb_true_iff. by apply String.eqb_neq.
Qed.

Lemma watch_inv_gc_dir d st :
  watch_inv (hub st) -> watch_inv (hub (snd (gc_dir d st))).
Proof.
  intros [Hnd Hne]. rewrite gc_dir_run. cbn [snd hub].
  set (live := live_subs (conns st) (default [] (handlers (hub st) !! d))).
  destruct live as [|s0 l] eqn:Hl; split; cbn [watcher handlers].
  - unfold remove_dir. apply NoDup_ListNoDup. apply List.NoDup_filter.
    by apply NoDup_ListNoDup.
  - intros d' Hin. apply remove_dir_In in Hin as [Hin Hd].
    rewrite lookup_insert_ne by done. by apply Hne.
  - done.
  - intros d' Hin. destruct (decide (d' = d)) as [->|Hd].
    + rewrite lookup_insert_eq. eauto.
    + rewrite lookup_insert_ne by done. by apply Hne.
Qed.

Lemma watch_inv_calls_keep h : calls_keep h (fun st => watch_inv (hub st)).
Proof. apply frames_out_calls_keep. intros st st' Hh _ H. by rewrite Hh. Qed.

Lemma watch_inv_getitem d :
  preserves (fun st => watch_inv (hub st)) (handlers_getitem d).
Proof.
  apply preserves_handlers_getitem. intros st Hd [Hnd Hne]. split; [done |].
  intros d' Hin. cbn [hub set_hub set_handlers handlers watcher] in *.
  destruct (Hne d' Hin) as (s & l & Hl).
  rewrite lookup_insert_ne by congruence. eauto.
Qed.

Lemma watch_inv_notify w path op content when :
  preserves (fun st => watch_inv (hub st)) (_notify w path op content when).
Proof.
  unfold _notify. apply preserves_bind.
  { by intros st H. }
  intros _. apply preserves_bind; [apply preserves_get_state | intros st0].
  apply preserves_bind; [apply watch_inv_getitem | intros subs].
  apply preserves_notify_loop. apply watch_inv_calls_keep.
Qed.

Lemma watch_inv_handle w operation filename :
  preserves (fun st => watch_inv (hub st)) (_handle w operation filename).
Proof.
  unfold _handle. apply preserves_bind.
  - apply preserves_try_except.
    + apply preserves_bind; [apply preserves_lift | intros mtime].
      apply preserves_bind; [apply preserves_lift | intros content].
      apply preserves_ret.
    + intros e. apply preserves_if; [apply preserves_raise | apply preserves_ret].
  - intros [[op content] when]. apply watch_inv_notify.
Qed.

Lemma watch_inv_gc : preserves (fun st => watch_inv (hub st)) _gc.
Proof.
  unfold _gc. apply preserves_bind; [apply preserves_get_state | intros st0].
  apply preserves_for_each. intros d _ st H. by apply watch_inv_gc_dir.
Qed.

Lemma watch_inv_on_message w self jmessage :
  preserves (fun st => watch_inv (hub st)) (on_message w self jmessage).
Proof.
  unfold on_message. apply preserves_try_except.
  2:{ intros e. apply preserves_send_error_msg, watch_inv_calls_keep. }
  apply preserves_bind; [apply preserves_lift | intros message].
  apply preserves_bind; [apply preserves_lift | intros topic].
  apply preserves_bind; [apply preserves_get_state | intros st0].
  apply preserves_bind; [apply preserves_lift | intros [ti|]].
  2:{ apply preserves_send_error_msg, watch_inv_calls_keep. }
  apply preserves_bind; [apply preserves_lift | intros pairs].
  apply preserves_bind.
  - apply preserves_for_each. intros dp _ st H. by apply watch_inv_register.
  - intros _. apply preserves_if; [apply watch_inv_calls_keep | apply preserves_ret].
Qed.

Lemma watch_inv_run_call w c :
  preserves (fun st => watch_inv (hub st)) (run_call w c).
Proof.
  destruct c; simpl.
  - intros st H. by apply watch_inv_register.
  - apply watch_inv_on_message.
  - unfold _on_created. apply preserves_bind; [apply preserves_lift | intros ch].
    apply preserves_if; [apply preserves_ret | apply watch_inv_handle].
  - unfold _on_modified. apply preserves_bind; [apply preserves_lift | intros ch].
    apply preserves_if; [apply preserves_ret | apply watch_inv_handle].
  - unfold _on_deleted. apply preserves_bind; [apply preserves_lift | intros ch].
    repeat (apply preserves_if; [apply preserves_ret |]).
    apply watch_inv_notify.
  - apply watch_inv_gc.
  - by intros st H.
  - by intros st H.
Qed.

Lemma watch_inv_run_calls calls :
  forall st, watch_inv (hub st) -> watch_inv (hub (run_calls calls st)).
Proof.
  induction calls as [|[w c] calls IH]; intros st H; simpl; [done |].
  apply IH. by apply watch_inv_run_call.
Qed.

(** ** C2: what [_gc] drops *)

Lemma gc_loop_run ks :
  forall st, NoDup ks ->
  exists st',
    for_each ks gc_dir st = (Ret tt, st') /\
    conns st' = conns st /\
    (forall d, handlers (hub st') !! d
               = if decide (d ∈ ks)
                 then Some (live_subs (conns st) (default [] (handlers (hub st) !! d)))
                 else handlers (hub st) !! d) /\
    (forall d, In d (watcher (hub st')) <->
               In d (watcher (hub st)) /\
               ~ (d ∈ ks /\
                  live_subs (conns st) (default [] (handlers (hub st) !! d)) = [])).
Proof.
  induction ks as [|k ks IH]; intros st Hnd.
  - exists st. split; [done |]. split; [done |]. split.
    + intros d. destruct (decide (d ∈ [])) as [Hin|]; [| done].
      by apply elem_of_nil in Hin.
    + intros d. split; [| tauto]. intros H. split; [done |].
      intros [Hin _]. by apply elem_of_nil in Hin.
  - apply NoDup_cons in Hnd as [Hk Hnd].
    pose proof (gc_dir_run k st) as Hrun. cbv zeta in Hrun.
    set (live := live_subs (conns st) (default [] (handlers (hub st) !! k))) in *.
    set (st1 := {| hub := _; conns := conns st |}) in Hrun.
    destruct (IH st1 Hnd) as (st' & Hloop & Hconns & Hh & Hw).
    exists st'. split; [| split; [| split]].
    + simpl. unfold bind. by rewrite Hrun.
    + by rewrite Hconns.
    + intros d. rewrite Hh. subst st1. cbn [hub handlers conns].
      destruct (decide (d = k)) as [->|Hdk].
      * destruct (decide (k ∈ ks)) as [|_]; [done |].
        destruct (decide (k ∈ k :: ks)) as [_|Hn]; [| by destruct Hn; left].
        by rewrite lookup_insert_eq.
      * rewrite lookup_insert_ne by done.
        destruct (decide (d ∈ ks)) as [Hin|Hnin];
          destruct (decide (d ∈ k :: ks)) as [Hin'|Hnin']; try done.
        -- destruct Hnin'. by right.
        -- apply elem_of_cons in Hin' as [?|?]; done.
    + intros d. rewrite Hw. subst st1. cbn [hub handlers watcher conns].
      destruct (decide (d = k)) as [->|Hdk].
      * fold live. destruct live as [|s0 l] eqn:Hl.
        -- rewrite remove_dir_In. split; [tauto |].
           intros [_ Hn]. destruct Hn. split; [by left | done].
        -- split; intros [Hin Hn]; (split; [done |]).
           ++ intros [_ Hnil]. discriminate Hnil.
           ++ intros [Hin' _]. done.
      * rewrite lookup_insert_ne by done.
        assert (Hwd : In d (match live with
                            | [] => remove_dir k (watcher (hub st))
                            | _ => watcher (hub st)
                            end) <-> In d (watcher (hub st))).
        { destruct live; [| done]. rewrite remove_dir_In. tauto. }
        rewrite Hwd. rewrite elem_of_cons. split; intros [Hin Hn]; (split; [done |]).
        -- intros [[?|?] ?]; [done | apply Hn; done].
        -- intros [? ?]. apply Hn. split; [by right | done].
Qed.

Lemma map_fst_fmap {A B} (l : list (A * B)) : List.map fst l = l.*1.
Proof. induction l as [|x l IH]; [done | simpl; by rewrite IH]. Qed.

Lemma filter_nil_Forall {A} (f : A -> bool) (l : list A) :
  List.filter f l = [] <-> Forall (fun x => f x = false) l.
Proof.
  induction l as [|x l IH]; simpl.
  - split; [intros _; apply Forall_nil_2 | done].
  - destruct (f x) eqn:E.
    + split; [done |]. intros H. apply Forall_cons in H as [H _]. congruence.
    + rewrite IH. split; [intros H; by apply Forall_cons | intros H].
      by apply Forall_cons in H as [_ H].
Qed.

(** C2, as the code has it.  [_gc] replaces the bucket of every
    directory by its subscriptions whose connection is live, in their
    order, and drops the others.  The bucket stays in the map: it is
    bound to the empty list exactly when every subscription of the
    directory is dead, and exactly then the directory leaves the
    watcher. *)
Theorem gc_drops_dead_subscriptions st directory bucket :
  handlers (hub st) !! directory = Some bucket ->
  let st' := snd (_gc st) in
  let all_dead := Forall (fun s => active st (sub_handler s) = false) bucket in
  fst (_gc st) = Ret tt /\
  conns st' = conns st /\
  handlers (hub st') !! directory
  = Some (List.filter (fun s => active st (sub_handler s)) bucket) /\
  (handlers (hub st') !! directory = Some [] <-> all_dead) /\
  (In directory (watcher (hub st')) <->
   In directory (watcher (hub st)) /\ ~ all_dead).
Proof.
  intros Hb st' all_dead. subst st'. unfold _gc. run_monad. cbv beta iota.
  rewrite map_fst_fmap.
  destruct (gc_loop_run ((map_to_list (handlers (hub st))).*1) st)
    as (st' & Hrun & Hconns & Hh & Hw); [apply NoDup_fst_map_to_list |].
  rewrite Hrun. cbn [fst snd].
  assert (Hkey : directory ∈ (map_to_list (handlers (hub st))).*1).
  { apply list_elem_of_fmap. exists (directory, bucket). split; [done |].
    by apply elem_of_map_to_list. }
  assert (Hlive : handlers (hub st') !! directory
                  = Some (List.filter (fun s => active st (sub_handler s)) bucket)).
  { rewrite Hh. destruct (decide _) as [_|Hn]; [| done].
    by rewrite Hb. }
  split; [done |]. split; [done |]. split; [done |]. split.
  - rewrite Hlive. unfold all_dead. rewrite <- filter_nil_Forall.
    split; [by intros [= ->] | by intros ->].
  - rewrite Hw, Hb. cbn [default from_option id]. unfold all_dead.
    rewrite <- filter_nil_Forall. unfold live_subs, active. tauto.
Qed.

Lemma gc_drops_dead_subscriptions_witness :
  let st := snd (_notify Scenario.the_world "/r/endpoints/b" (Some Modified)
                   (Some "B") (70 # 1) Scenario.two_subscribers) in
  active st 1%nat = false /\
  active st 2%nat = true /\
  handlers (hub (snd (_gc st))) !! "/r/endpoints"
  = Some [ {| sub_pattern := "*"; sub_handler := 2%nat;
              sub_impl := Scenario.echo_impl None |} ] /\
  In "/r/endpoints" (watcher (hub (snd (_gc st)))).
Proof.
  intros st.
  assert (Hb : handlers (hub st) !! "/r/endpoints"
               = Some [ {| sub_pattern := "*"; sub_handler := 1%nat;
                           sub_impl := Scenario.yaml_impl |};
                        {| sub_pattern := "*"; sub_handler := 2%nat;
                           sub_impl := Scenario.echo_impl None |} ])
    by (vm_compute; reflexivity).
  pose proof (gc_drops_dead_subscriptions st "/r/endpoints" _ Hb)
    as (_ & _ & Hlive & _ & Hwatch).
  split; [vm_compute; reflexivity |]. split; [vm_compute; reflexivity |].
  split.
  - rewrite Hlive. vm_compute. reflexivity.
  - apply Hwatch. split.
    + vm_compute. by left.
    + intros Hdead. apply Forall_cons in Hdead as [_ Hdead].
      apply Forall_cons in Hdead as [Hdead _]. vm_compute in Hdead. discriminate.
Defined.

(** Against C2 as it is stated.  The only subscriber of [/r/endpoints]
    asked for a snapshot and its connection is closed.  [_gc] takes the
    directory out of the watcher, but not out of the bucket map: the key
    stays, bound to the empty list. *)
Lemma gc_keeps_the_bucket_key :
  let st := snd (on_message Scenario.the_world 1%nat Scenario.snapshot_request
                   (Scenario.start None)) in
  let st' := snd (_gc st) in
  (exists s, handlers (hub st) !! "/r/endpoints" = Some [s] /\
             active st (sub_handler s) = false) /\
  ~ In "/r/endpoints" (watcher (hub st')) /\
  ~ handlers (hub st') !! "/r/endpoints" = None.
Proof.
  vm_compute. split; [| split].
  - eexists. split; reflexivity.
  - intros H; exact H.
  - discriminate.
Qed.

(** ** C3: one registration per watched directory *)

(** C3.  A registration on a directory whose bucket already holds a
    subscription leaves the watcher as it is; and whatever calls a hub
    that started empty has seen (registrations, requests, watcher
    events, gc runs, connections that come and go), its watcher holds
    no directory twice. *)
Theorem watcher_holds_each_directory_once :
  (forall w directory pattern h ti since st s l,
     handlers (hub st) !! normalized w (root (hub st)) directory = Some (s :: l) ->
     watcher (hub (snd (register w directory pattern h ti since st)))
     = watcher (hub st)) /\
  (forall r impls cs calls,
     NoDup (watcher (hub (run_calls calls
                            {| hub := new_pubsub r impls; conns := cs |})))).
Proof.
  split.
  - intros w directory pattern h ti since st s l Hb.
    rewrite register_hub. unfold registered. cbn [watcher]. by rewrite Hb.
  - intros r impls cs calls.
    apply (watch_inv_run_calls calls {| hub := new_pubsub r impls; conns := cs |}).
    split; [apply NoDup_nil_2 | intros d []].
Qed.

Lemma watcher_holds_each_directory_once_witness :
  watcher (hub (snd (register Scenario.the_world "/endpoints" "b*" 2%nat
                       (Scenario.echo_impl None) (JInt 0)
                       Scenario.two_subscribers)))
  = watcher (hub Scenario.two_subscribers).
Proof.
  eapply (proj1 watcher_holds_each_directory_once). reflexivity.
Defined.

(** ** C4: dotfiles *)

(** C4.  A subscription with the pattern [.*] on [/endpoints], where the
    marker [.done] lies: the filesystem scan of the replay keeps the
    dotfile and a message for [/endpoints/.done] goes out. *)
Theorem sow_replays_dotfile :
  let impl := Scenario.echo_impl None in
  let run := register Scenario.the_world "/endpoints" ".*" 1%nat impl (JInt 0)
               (Scenario.start None) in
  fst run = Ret tt /\
  wire (conns (snd run) !!! 1%nat)
  = [Written (Message [("name", JStr "/endpoints/.done")] (80 # 1))].
Proof. vm_compute. split; reflexivity. Qed.

(* the historical store is not filtered either: with the pattern [*], a
   record of a dotfile is replayed *)
Example sow_replays_dotfile_from_store :
  let ti := Scenario.echo_impl (Some "old.db") in
  let run := register Scenario.the_world "/endpoints" "*" 1%nat ti (JInt 0)
               (Scenario.start (Some "old.db")) in
  wire (conns (snd run) !!! 1%nat)
  = [Written (Message [("name", JStr "/endpoints/.tmp")] (60 # 1));
     Written (Message [("name", JStr "/endpoints/b")] (70 # 1));
     Written (Message [("name", JStr "/endpoints/a")] (100 # 1))].
Proof. vm_compute. reflexivity. Qed.

(** ** C4, live half: the callbacks ignore dotfiles *)

Lemma on_created_dotfile w filename st :
  starts_with_dot (basename filename) = true ->
  _on_created w filename st = (Ret tt, st).
Proof.
  unfold starts_with_dot, _on_created, getitem0. intros H. run_monad.
  destruct (head_char (basename filename)); [|done]. simpl. by rewrite H.
Qed.

Lemma on_modified_dotfile w filename st :
  starts_with_dot (basename filename) = true ->
  _on_modified w filename st = (Ret tt, st).
Proof.
  unfold starts_with_dot, _on_modified, getitem0. intros H. run_monad.
  destruct (head_char (basename filename)); [|done]. simpl. by rewrite H.
Qed.

Lemma on_deleted_dotfile w filename st :
  starts_with_dot (basename filename) = true ->
  _on_deleted w filename st = (Ret tt, st).
Proof.
  unfold starts_with_dot, _on_deleted, getitem0. intros H. run_monad.
  destruct (head_char (basename filename)); [|done]. simpl. by rewrite H.
Qed.

(** ** C5: deletions and the done marker *)

(** C5.  For a path that names a file (its last segment is not empty),
    is not a dotfile and is not a directory: when the sibling [.done]
    exists at the time the deletion is handled, nothing happens at all;
    when it does not, the Raw Event (path, deleted, no content, now) is
    handed to [_notify].  So the deletion is suppressed if and only if
    the marker exists, and a deletion that comes after the marker is
    gone is dispatched. *)
Theorem on_deleted_suppressed_iff_done_marker w filename st :
  basename filename <> EmptyString ->
  starts_with_dot (basename filename) = false ->
  path_isdir (fs w) filename = false ->
  let marker := path_exists (fs w) (path_join (dirname filename) ".done") in
  let st' := snd (_on_deleted w filename st) in
  (marker = true -> _on_deleted w filename st = (Ret tt, st)) /\
  (marker = false ->
     _on_deleted w filename st
     = _notify w filename (Some Deleted) None (time_time w) st) /\
  (marker = true <-> dispatched (hub st') = dispatched (hub st)) /\
  (marker = false <->
     dispatched (hub st')
     = (dispatched (hub st) ++ [(filename, Some Deleted, None, time_time w)])%list).
Proof.
  intros Hne Hdot Hdir marker st'.
  assert (Hc : exists c, head_char (basename filename) = Some c /\
                         Ascii.eqb c dot = false).
  { unfold starts_with_dot in Hdot. destruct (basename filename) as [|c r]; [done |].
    exists c. by split. }
  destruct Hc as (c & Hc & Hcdot).
  assert (Hyes : marker = true -> _on_deleted w filename st = (Ret tt, st)).
  { intros Hm. unfold _on_deleted, getitem0. rewrite Hc. run_monad. cbv beta iota.
    rewrite Hcdot. unfold marker in Hm. by rewrite Hm. }
  assert (Hno : marker = false -> _on_deleted w filename st
              = _notify w filename (Some Deleted) None (time_time w) st).
  { intros Hm. unfold _on_deleted, getitem0. rewrite Hc. run_monad. cbv beta iota.
    rewrite Hcdot. unfold marker in Hm. by rewrite Hm, Hdir. }
  assert (Hgrow : forall (l : list raw_event) x, (l ++ [x])%list <> l).
  { intros l x Heq. apply (f_equal (@List.length _)) in Heq.
    rewrite length_app in Heq. simpl in Heq. lia. }
  split; [done |]. split; [done |]. subst st'. destruct marker eqn:Em.
  - rewrite (Hyes eq_refl). cbn [snd]. split; split; try done.
    intros Heq. symmetry in Heq. by apply Hgrow in Heq.
  - rewrite (Hno eq_refl), notify_dispatched. split; split; try done.
    intros Heq. by apply Hgrow in Heq.
Qed.

Lemma on_deleted_suppressed_iff_done_marker_witness :
  _on_deleted Scenario.the_world "/r/endpoints/a" (Scenario.start None)
  = (Ret tt, Scenario.start None).
Proof.
  apply (on_deleted_suppressed_iff_done_marker Scenario.the_world
           "/r/endpoints/a" (Scenario.start None)); reflexivity || discriminate.
Defined.

(** ** C6: an interpretation that raises during dispatch *)

(** C6.  The file [a] is modified, and two live subscriptions match it.
    The topic of the first one raises a [YAMLError], which is an
    [Exception] but not a [StandardError]: the [except StandardError]
    clause of [_notify] lets it through (where [_publish], for the same
    call of [on_event], catches [Exception]), the dispatch stops, and
    neither the error frame for the first connection nor the message for
    the second one is written. *)
Theorem notify_aborts_outside_StandardError :
  let run := _on_modified Scenario.the_world "/r/endpoints/a"
               Scenario.two_subscribers in
  fst run = Raise Scenario.YAMLError /\
  ~ (exists err when,
       In (Written (ErrorMsg err when)) (wire (conns (snd run) !!! 1%nat))) /\
  ~ (exists body when,
       In (Written (Message body when)) (wire (conns (snd run) !!! 2%nat))).
Proof.
  vm_compute. split; [reflexivity |].
  split; intros (x & y & H); exact H.
Qed.

(* the same with the identity-group topic of the repository, on a file
   whose content is not a YAML document *)
Example identity_group_bad_yaml_aborts_dispatch :
  let run := _notify Scenario.the_world "/r/identity-groups/web/7" (Some Modified)
               (Some "a: b: c") (70 # 1) IdentityScenario.two_web_subscribers in
  fst run = Raise Scenario.YAMLError /\
  wire (conns (snd run) !!! 1%nat) = [] /\
  wire (conns (snd run) !!! 2%nat) = [].
Proof. vm_compute. repeat split; reflexivity. Qed.

(** *** C6, the part that holds *)

(* one turn of the loop, for a subscription that is not interpreted, or
   whose pattern compiles and whose interpretation raises nothing but a
   StandardError *)
Lemma notify_sub_deliver w root_len path filename op content when s st :
  (active st (sub_handler s) = true ->
   compiles (sub_pattern s) = true /\
   (fnmatch filename (sub_pattern s) = true ->
    forall e, on_event (sub_impl s) (drop_prefix root_len path) op content = Raise e ->
              is_StandardError e = true)) ->
  exists st',
    notify_sub w root_len path filename op content when s st = (Ret tt, st') /\
    hub st' = hub st /\
    forall c, conns st' !!! c
              = if decide (sub_handler s = c)
                then deliver w (drop_prefix root_len path) filename op content when
                       (conns st !!! c) s
                else conns st !!! c.
Proof.
  intros Hstd. unfold notify_sub, deliver, fnmatch_fnmatch. run_monad. cbv beta iota.
  unfold active in *.
  destruct (ws_connection (conns st !!! sub_handler s)) eqn:Hlive; simpl.
  2:{ exists st. repeat split. intros c. destruct (decide _) as [<-|]; [|done].
      by rewrite Hlive. }
  destruct (Hstd eq_refl) as [Hcomp Hraise]. rewrite Hcomp. cbv beta iota.
  destruct (fnmatch filename (sub_pattern s)).
  2:{ exists st. repeat split. intros c. destruct (decide _) as [<-|]; [|done].
      by rewrite Hlive. }
  destruct (on_event (sub_impl s) (drop_prefix root_len path) op content)
    as [[body|]|e] eqn:Hev; cbv beta iota.
  - unfold write_message. rewrite Hlive. eexists. split; [reflexivity |].
    split; [done |]. intros c. rewrite conn_set_conn.
    destruct (decide _) as [<-|]; [|done]. by rewrite Hlive.
  - exists st. repeat split. intros c. destruct (decide _) as [<-|]; [|done].
    by rewrite Hlive.
  - rewrite (Hraise eq_refl e eq_refl). rewrite send_error_msg_live by done.
    eexists. split; [reflexivity |]. split; [done |]. intros c.
    rewrite conn_set_conn. destruct (decide _) as [<-|]; [|done].
    by rewrite Hlive.
Qed.

(* a turn of the loop opens no connection *)
Lemma deliver_stays_closed w relpath filename op content when c s :
  ws_connection c = false ->
  deliver w relpath filename op content when c s = c.
Proof. intros H. unfold deliver. by rewrite H. Qed.

Lemma notify_loop_deliver w root_len path filename op content when subs :
  forall st,
  (forall s, In s subs -> active st (sub_handler s) = true ->
     compiles (sub_pattern s) = true /\
     (fnmatch filename (sub_pattern s) = true ->
      forall e, on_event (sub_impl s) (drop_prefix root_len path) op content = Raise e ->
                is_StandardError e = true)) ->
  exists st',
    for_each subs (notify_sub w root_len path filename op content when) st
    = (Ret tt, st') /\
    hub st' = hub st /\
    forall c, conns st' !!! c
              = fold_left (deliver w (drop_prefix root_len path) filename op content when)
                  (subs_of c subs) (conns st !!! c).
Proof.
  induction subs as [|s subs IH]; intros st Hstd.
  - exists st. by repeat split.
  - destruct (notify_sub_deliver w root_len path filename op content when s st)
      as (st1 & Hrun1 & Hhub1 & Hc1).
    { apply Hstd. by left. }
    destruct (IH st1) as (st2 & Hrun2 & Hhub2 & Hc2).
    { intros s' Hin Hlive. apply Hstd; [by right |].
      unfold active in *. rewrite Hc1 in Hlive.
      destruct (decide (sub_handler s = sub_handler s')) as [Heq|]; [| done].
      destruct (ws_connection (conns st !!! sub_handler s')) eqn:E; [done |].
      rewrite deliver_stays_closed in Hlive by exact E. congruence. }
    exists st2. split; [| split].
    + simpl. unfold bind. by rewrite Hrun1.
    + congruence.
    + intros c. rewrite Hc2, Hc1. unfold subs_of. simpl.
      destruct (decide (sub_handler s = c)) as [->|Hne].
      * by rewrite Nat.eqb_refl.
      * apply Nat.eqb_neq in Hne. by rewrite Hne.
Qed.

(** What [_notify] does isolate.  When the patterns of the subscriptions
    whose connection is live compile, and whatever the topic
    implementations of the live subscriptions that match raise for the
    event is a [StandardError], the dispatch runs to its end and every
    connection ends up with what its own subscriptions, taken in order,
    [deliver] to it: a subscription whose interpretation raises puts the
    error frame (and the close) on its own connection and on no other,
    and the subscriptions of the other connections are served as if
    nothing had happened.  Nothing is asked of the subscriptions that
    are not interpreted (dead connection, or a name that does not
    match). *)
Theorem notify_isolates_standard_errors w path op content when st :
  let bucket := default [] (handlers (hub st) !! dirname path) in
  let relpath := drop_prefix (String.length (root (hub st))) path in
  (forall s, In s bucket -> active st (sub_handler s) = true ->
     compiles (sub_pattern s) = true /\
     (fnmatch (basename path) (sub_pattern s) = true ->
      forall e, on_event (sub_impl s) relpath op content = Raise e ->
                is_StandardError e = true)) ->
  exists st',
    _notify w path op content when st = (Ret tt, st') /\
    forall c, conns st' !!! c
              = fold_left (deliver w relpath (basename path) op content when)
                  (subs_of c bucket) (conns st !!! c).
Proof.
  intros bucket relpath Hstd. unfold _notify, handlers_getitem. run_monad.
  cbv beta iota. cbn [hub set_hub set_dispatched root handlers set_handlers].
  fold bucket. destruct (handlers (hub st) !! dirname path) as [l|] eqn:Hb.
  - destruct (notify_loop_deliver w (String.length (root (hub st))) path
                (basename path) op content when l
                (set_hub (fun p => set_dispatched
                            (dispatched p ++ [(path, op, content, when)]) p) st))
      as (st' & Hrun & _ & Hc); [exact Hstd |].
    exists st'. split; [exact Hrun | exact Hc].
  - exists (set_hub (fun p => set_handlers (<[dirname path := []]> (handlers p)) p)
              (set_hub (fun p => set_dispatched
                          (dispatched p ++ [(path, op, content, when)]) p) st)).
    split; [reflexivity | done].
Qed.

Lemma notify_isolates_standard_errors_witness :
  exists st',
    _notify Scenario.the_world "/r/endpoints/b" (Some Modified) (Some "B") (70 # 1)
      Scenario.two_subscribers = (Ret tt, st') /\
    forall c, conns st' !!! c
              = fold_left
                  (deliver Scenario.the_world "/endpoints/b" "b" (Some Modified)
                     (Some "B") (70 # 1))
                  (subs_of c
                     [ {| sub_pattern := "*"; sub_handler := 1%nat;
                          sub_impl := Scenario.yaml_impl |};
                       {| sub_pattern := "*"; sub_handler := 2%nat;
                          sub_impl := Scenario.echo_impl None |} ])
                  (conns Scenario.two_subscribers !!! c).
Proof.
  apply (notify_isolates_standard_errors Scenario.the_world "/r/endpoints/b"
           (Some Modified) (Some "B") (70 # 1) Scenario.two_subscribers).
  intros s Hin _. split.
  - vm_compute in Hin. by destruct Hin as [<- | [<- | []]].
  - intros _ e Hev. vm_compute in Hin.
    destruct Hin as [<- | [<- | []]]; vm_compute in Hev.
    + inversion Hev. reflexivity.
    + discriminate Hev.
Defined.

(* the same dispatch, run: the error frame and the close on the first
   connection, the message on the second *)
Example notify_isolates_standard_errors_run :
  let run := _notify Scenario.the_world "/r/endpoints/b" (Some Modified) (Some "B")
               (70 # 1) Scenario.two_subscribers in
  fst run = Ret tt /\
  conns (snd run) !!! 1%nat
  = {| ws_connection := false;
       wire := [Written (ErrorMsg "ValueError: invalid literal" "2017-01-01T00:00:00");
                Closed] |} /\
  conns (snd run) !!! 2%nat
  = {| ws_connection := true;
       wire := [Written (Message [("name", JStr "/endpoints/b")] (70 # 1))] |}.
Proof. vm_compute. repeat split; reflexivity. Qed.

(** ** C7: a file that is gone when the hub reads it *)

(** C7.  [/r/endpoints/gone] is reported as created and no longer exists
    when [_handle] calls [os.stat]: the [OSError] is not an [IOError], it
    leaves [_handle] and the callback, and no deletion event is
    dispatched. *)
Theorem on_created_vanished_file_raises :
  let st := snd (register Scenario.the_world "/endpoints" "*" 1%nat
                   (Scenario.echo_impl None) (JInt 0) (Scenario.start None)) in
  let run := _on_created Scenario.the_world "/r/endpoints/gone" st in
  fst run = Raise (env_error OSError ENOENT) /\
  snd run = st.
Proof. vm_compute. split; reflexivity. Qed.

(** ** C7, the part that holds: a file that is gone at [open] *)

Lemma handle_vanished_before_open w operation filename mtime st :
  stat_mtime (fs w) filename = inr mtime ->
  read_file (fs w) filename = inl ENOENT ->
  _handle w operation filename st
  = _notify w filename (Some Deleted) None
      (inject_Z (int_of_float (time_time w))) st.
Proof.
  intros Hs Hr. unfold _handle, os_stat, open_read. rewrite Hs, Hr.
  run_monad. reflexivity.
Qed.

Lemma handle_vanished_before_stat w operation filename st :
  stat_mtime (fs w) filename = inl ENOENT ->
  _handle w operation filename st = (Raise (env_error OSError ENOENT), st).
Proof.
  intros Hs. unfold _handle, os_stat. rewrite Hs. run_monad. reflexivity.
Qed.

(** ** C8: protocol errors *)

(** C8.  A subscribe request whose body is not well-formed JSON, or has
    no ["topic"] member, or names a topic without a registered
    implementation, is answered on the (open) connection by one error
    frame that carries the description of the failure, and the
    connection is closed right after it; nothing else changes and no
    exception leaves [on_message]. *)
Theorem on_message_protocol_error w self jmessage st description :
  active st self = true ->
  protocol_error w (hub st) jmessage description ->
  on_message w self jmessage st
  = (Ret tt, set_conn self (errored w description (conns st !!! self)) st).
Proof.
  intros Hlive Herr. unfold on_message.
  destruct Herr as [Hj | m e Hj Ht | m t e Hj Ht Hi | m t Hj Ht Hi];
    run_monad; rewrite Hj; simpl.
  - by apply send_error_msg_live.
  - rewrite Ht. by apply send_error_msg_live.
  - rewrite Ht; simpl. rewrite Hi. by apply send_error_msg_live.
  - rewrite Ht; simpl. rewrite Hi. run_monad; simpl.
    by rewrite send_error_msg_live.
Qed.

Lemma on_message_protocol_error_witness :
  on_message Scenario.the_world 1%nat Scenario.unknown_topic_request (Scenario.start None)
  = (Ret tt,
     set_conn 1%nat
       (errored Scenario.the_world "Invalid topic: u'/nosuch'" Scenario.open_conn)
       (Scenario.start None)).
Proof.
  apply (on_message_protocol_error Scenario.the_world 1%nat Scenario.unknown_topic_request
           (Scenario.start None) "Invalid topic: u'/nosuch'").
  - reflexivity.
  - apply (pe_unknown_topic _ _ _ (JObj [("topic", JStr "/nosuch")]) (JStr "/nosuch"));
      reflexivity.
Defined.

(** ** Registration and the handler objects *)









(** ** C9: snapshot subscriptions *)

Lemma wrote_nil h st : active st h = true -> wrote h [] st st.
Proof.
  unfold active, wrote. intros H. split; [done |].
  destruct (conns st !!! h) as [live wr]. simpl in *. subst live.
  by rewrite app_nil_r.
Qed.

Lemma wrote_trans h f1 f2 st st1 st2 :
  wrote h f1 st st1 -> wrote h f2 st1 st2 -> wrote h (f1 ++ f2) st st2.
Proof.
  intros [Hr1 Hc1] [Hr2 Hc2]. split; [congruence |].
  rewrite Hc2, Hc1. cbn [wire]. by rewrite map_app, app_assoc.
Qed.

Lemma wrote_active h frames st st' : wrote h frames st st' -> active st' h = true.
Proof. intros [_ Hc]. unfold active. by rewrite Hc. Qed.

Lemma write_message_wrote h f st :
  active st h = true ->
  exists st', write_message h f st = (Ret tt, st') /\ wrote h [f] st st'.
Proof.
  unfold active, write_message. intros Hlive. rewrite Hlive.
  eexists. split; [reflexivity |]. split; [done |].
  rewrite conn_set_conn. by destruct (decide (h = h)).
Qed.

(* a replay in which nothing raises writes its frames and returns *)
Lemma publish_clean w h ti items :
  forall st frames,
  active st h = true ->
  clean_frames ti items = Some frames ->
  exists st',
    for_each items (_publish w h ti) st = (Ret tt, st') /\ wrote h frames st st'.
Proof.
  induction items as [|item r IH]; intros st frames Hlive Hclean.
  - injection Hclean as <-. exists st. split; [done | by apply wrote_nil].
  - cbn [clean_frames] in Hclean. destruct item as [[when path] content].
    cbn [rec_path rec_content rec_when fst snd] in Hclean.
    destruct (on_event ti path None (Some content)) as [o|e] eqn:Hev; [| done].
    destruct (clean_frames ti r) as [l|] eqn:Hl; [| done].
    injection Hclean as <-.
    cbn [for_each]. unfold bind at 1, _publish, try_except.
    unfold bind at 1, lift. rewrite Hev. unfold ret at 1.
    destruct o as [body|].
    + destruct (write_message_wrote h (Message body (inject_Z when)) st Hlive)
        as (st1 & Hw & Hst1).
      rewrite Hw.
      destruct (IH st1 l (wrote_active _ _ _ _ Hst1) eq_refl) as (st2 & Hrun & Hst2).
      exists st2. split; [exact Hrun |].
      by apply (wrote_trans h [_] l st st1 st2).
    + unfold ret at 1. by apply IH.
Qed.

Lemma sow_clean w directory pattern since h ti st frames :
  active st h = true ->
  sow_frames w (root (hub st)) directory pattern since ti = Some frames ->
  exists st',
    _sow w directory pattern since h ti st = (Ret tt, st') /\ wrote h frames st st'.
Proof.
  intros Hlive Hf. unfold sow_frames in Hf. unfold _sow. run_monad. cbv beta iota.
  destruct (sow_sources w (root (hub st)) directory pattern (sow_since since) ti)
    as [[db_records fs_records]|e]; [| done].
  rewrite publish_merged_published. by apply publish_clean.
Qed.

Lemma register_clean w directory pattern since h ti st frames :
  active st h = true ->
  sow_frames w (root (hub st)) (normalized w (root (hub st)) directory) pattern
    since ti = Some frames ->
  exists st',
    register w directory pattern h ti since st = (Ret tt, st') /\
    wrote h frames st st'.
Proof.
  intros Hlive Hf. rewrite register_run. cbv zeta.
  set (st1 := {| hub := _; conns := conns st |}).
  destruct (sow_clean w (normalized w (root (hub st)) directory) pattern since h ti
              st1 frames Hlive Hf) as (st' & Hrun & Hr & Hc).
  exists st'. split; [exact Hrun |]. split; [exact Hr | exact Hc].
Qed.

Lemma registers_clean w since h ti pairs :
  forall st frames,
  active st h = true ->
  request_frames w (root (hub st)) pairs since ti = Some frames ->
  exists st',
    for_each pairs (fun dp => register w (fst dp) (snd dp) h ti since) st
    = (Ret tt, st') /\
    wrote h frames st st'.
Proof.
  induction pairs as [|dp r IH]; intros st frames Hlive Hf.
  - injection Hf as <-. exists st. split; [done | by apply wrote_nil].
  - cbn [request_frames] in Hf.
    destruct (sow_frames w (root (hub st)) _ (snd dp) since ti) as [f1|] eqn:H1;
      [| done].
    destruct (request_frames w (root (hub st)) r since ti) as [f2|] eqn:H2; [| done].
    injection Hf as <-.
    destruct (register_clean w (fst dp) (snd dp) since h ti st f1 Hlive H1)
      as (st1 & Hrun1 & Hst1).
    destruct (IH st1 f2 (wrote_active _ _ _ _ Hst1)) as (st2 & Hrun2 & Hst2).
    { destruct Hst1 as [Hr _]. by rewrite Hr. }
    exists st2. split; [| by apply (wrote_trans h f1 f2 st st1 st2)].
    cbn [for_each]. unfold bind. by rewrite Hrun1.
Qed.









(** The calls are taken one at a time.  The subscription is in its
    bucket before the replay starts ([register] appends, then calls
    [_sow]), so a dispatch that ran between the replay and the close, as
    one from the thread of [run_detached] can, would be delivered: here
    the creation of a file [c] is dispatched in the state that
    [register] leaves, and its message follows the replay on the
    connection. *)
Example snapshot_dispatch_before_close :
  let st1 := snd (register Scenario.the_world "/endpoints" "*" 1%nat
                    (Scenario.echo_impl None) (JInt 0) (Scenario.start None)) in
  let run := _notify Scenario.the_world "/r/endpoints/c" (Some Created) (Some "C")
               (120 # 1) st1 in
  conns (snd run) !!! 1%nat
  = {| ws_connection := true;
       wire := [Written (Message [("name", JStr "/endpoints/b")] (70 # 1));
                Written (Message [("name", JStr "/endpoints/a")] (100 # 1));
                Written (Message [("name", JStr "/endpoints/c")] (120 # 1))] |}.
Proof. vm_compute. reflexivity. Qed.



(* the snapshot request of the scenario, run *)
Example snapshot_run :
  conns (snd (on_message Scenario.the_world 1%nat Scenario.snapshot_request
                (Scenario.start (Some "sow.db")))) !!! 1%nat
  = {| ws_connection := false;
       wire := [Written (Message [("name", JStr "/endpoints/a")] (50 # 1));
                Written (Message [("name", JStr "/endpoints/b")] (70 # 1));
                Written (Message [("name", JStr "/endpoints/a")] (100 # 1));
                Closed] |}.
Proof. vm_compute. reflexivity. Qed.

(** ** C10: [since] given as [None] *)

(** C10.  A subscription whose [since] is [None] is replayed exactly as
    one whose [since] is 0: [_sow] and [register] are the same
    computation for both, whether the request left the member out
    ([message.get('since', 0)] is then 0) or carried a JSON null; the
    timestamp filters of the filesystem scan and of the historical store
    are those of 0, and they let through every record from the epoch on. *)
Theorem since_None_is_zero :
  (forall w directory pattern handler ti,
     _sow w directory pattern JNull handler ti
     = _sow w directory pattern (JInt 0) handler ti) /\
  (forall w directory pattern handler ti,
     register w directory pattern handler ti JNull
     = register w directory pattern handler ti (JInt 0)) /\
  (forall fields w directory pattern handler ti,
     assoc "since" fields = None \/ assoc "since" fields = Some JNull ->
     register w directory pattern handler ti
       (message_get (JObj fields) "since" (JInt 0))
     = register w directory pattern handler ti (JInt 0)) /\
  (forall mtime,
     float_ge mtime (sow_since JNull) = float_ge mtime (JInt 0) /\
     ((0 <= mtime)%Q -> float_ge mtime (sow_since JNull) = true)) /\
  (forall ts,
     sql_ge ts (sow_since JNull) = sql_ge ts (JInt 0) /\
     (0 <= ts -> sql_ge ts (sow_since JNull) = true)).
Proof.
  split; [reflexivity |]. split; [reflexivity |]. split; [| split].
  - intros fields w directory pattern handler ti [H | H];
      unfold message_get, dict_get; rewrite H; reflexivity.
  - intros mtime. split; [reflexivity |]. intros H.
    unfold float_ge, sow_since, as_number. by apply Qle_bool_iff.
  - intros ts. split; [reflexivity |]. intros H.
    unfold sql_ge, sow_since, as_number. by apply Z.leb_le.
Qed.

Lemma since_None_is_zero_witness :
  register Scenario.the_world "/endpoints" "*" 1%nat (Scenario.echo_impl None)
    (message_get (JObj [("topic", JStr "/endpoints"); ("since", JNull)]) "since" (JInt 0))
  = register Scenario.the_world "/endpoints" "*" 1%nat (Scenario.echo_impl None) (JInt 0).
Proof.
  apply (proj1 (proj2 (proj2 since_None_is_zero))). right. reflexivity.
Defined.

(** * Further properties of the hub *)

(** ** Dispatch: who is reached *)




(** X2.  A dispatch reaches a connection only through a subscription of
    the bucket of the event's parent directory whose pattern matches the
    file name: a connection none of whose subscriptions in that bucket
    matches (or that has none there) is left as it is. *)
Theorem notify_reaches_only_matching_subscriptions w path op content when h st :
  (forall s, In s (default [] (handlers (hub st) !! dirname path)) ->
             sub_handler s = h ->
             fnmatch (basename path) (sub_pattern s) = false) ->
  conns (snd (_notify w path op content when st)) !!! h = conns st !!! h.
Proof.
  intros Hnone. set (c := conns st !!! h).
  set (P := fun s : state => conns s !!! h = c).
  assert (Hother : forall h', h' <> h -> calls_keep h' P).
  { intros h' Hne. apply frames_out_calls_keep. intros s s' _ Hc Hs.
    unfold P in *. by rewrite Hc. }
  change (P (snd (_notify w path op content when st))).
  unfold _notify, handlers_getitem. run_monad. cbv beta iota.
  cbn [hub set_hub set_dispatched handlers root].
  destruct (handlers (hub st) !! dirname path) as [bucket|] eqn:Hb;
    cbn [default from_option id] in Hnone; [| done].
  apply (preserves_for_each P); [| done].
  intros s Hin. destruct (decide (sub_handler s = h)) as [Hh|Hh].
  - intros s0 Hs0. unfold notify_sub. run_monad. cbv beta iota.
    destruct (negb (active s0 (sub_handler s))); [done |].
    unfold fnmatch_fnmatch. destruct (compiles (sub_pattern s)); [| done].
    by rewrite (Hnone s Hin Hh).
  - apply preserves_notify_sub. by apply Hother.
Qed.

Lemma notify_reaches_only_matching_subscriptions_witness :
  conns (snd (_notify Scenario.the_world "/r/endpoints/b" (Some Created) (Some "B")
                (70 # 1) Scenario.one_pattern_each)) !!! 1%nat
  = conns Scenario.one_pattern_each !!! 1%nat.
Proof.
  apply (notify_reaches_only_matching_subscriptions Scenario.the_world
           "/r/endpoints/b" (Some Created) (Some "B") (70 # 1) 1%nat
           Scenario.one_pattern_each).
  intros s Hin Hh. vm_compute in Hin.
  destruct Hin as [<- | [<- | []]]; [reflexivity | discriminate Hh].
Defined.

(** X3.  An event in a directory that has no bucket delivers nothing and
    returns; looking the bucket up binds the directory to an empty list
    in [handlers], and the watcher is not touched. *)
Theorem notify_without_bucket w path op content when st :
  handlers (hub st) !! dirname path = None ->
  let run := _notify w path op content when st in
  fst run = Ret tt /\
  conns (snd run) = conns st /\
  handlers (hub (snd run)) = <[dirname path := []]> (handlers (hub st)) /\
  watcher (hub (snd run)) = watcher (hub st).
Proof.
  intros Hb. unfold _notify, handlers_getitem. run_monad. cbv beta iota.
  cbn [hub set_hub set_dispatched handlers]. rewrite Hb. by cbv beta iota.
Qed.

Lemma notify_without_bucket_witness :
  handlers (hub (snd (_notify Scenario.the_world "/r/other/x" (Some Created)
                        (Some "X") (1 # 1) (Scenario.start None))))
  = <["/r/other" := []]> (handlers (hub (Scenario.start None))).
Proof.
  apply (notify_without_bucket Scenario.the_world "/r/other/x" (Some Created)
           (Some "X") (1 # 1) (Scenario.start None)).
  reflexivity.
Defined.

(** ** The callbacks: files that cannot be read, paths without a name *)

Lemma callback_is_handle w filename st c :
  head_char (basename filename) = Some c ->
  Ascii.eqb c dot = false ->
  _on_created w filename st = _handle w Created filename st /\
  _on_modified w filename st = _handle w Modified filename st.
Proof.
  intros Hc Hdot. unfold _on_created, _on_modified, getitem0. rewrite Hc.
  run_monad. cbv beta iota. by rewrite Hdot.
Qed.

Lemma not_dotfile_head filename :
  basename filename <> EmptyString ->
  starts_with_dot (basename filename) = false ->
  exists c, head_char (basename filename) = Some c /\ Ascii.eqb c dot = false.
Proof.
  unfold starts_with_dot. intros Hne Hdot.
  destruct (basename filename) as [|c r]; [done |]. exists c. by split.
Qed.

(** X4.  A created or modified file that can still be stat'ed but is gone
    when it is opened (ENOENT) is dispatched as a deletion: operation
    deleted, no content, and the current time cut to whole seconds as
    timestamp, whatever the notification was. *)
Theorem file_gone_at_open_is_dispatched_as_deletion w filename mtime st :
  basename filename <> EmptyString ->
  starts_with_dot (basename filename) = false ->
  stat_mtime (fs w) filename = inr mtime ->
  read_file (fs w) filename = inl ENOENT ->
  let deletion := (filename, Some Deleted, @None string,
                   inject_Z (int_of_float (time_time w))) in
  dispatched (hub (snd (_on_created w filename st)))
  = (dispatched (hub st) ++ [deletion])%list /\
  dispatched (hub (snd (_on_modified w filename st)))
  = (dispatched (hub st) ++ [deletion])%list.
Proof.
  intros Hne Hdot Hs Hr deletion.
  destruct (not_dotfile_head filename Hne Hdot) as (c & Hc & Hcdot).
  destruct (callback_is_handle w filename st c Hc Hcdot) as [-> ->].
  rewrite !(handle_vanished_before_open w _ filename mtime st Hs Hr).
  by rewrite notify_dispatched.
Qed.

Lemma file_gone_at_open_is_dispatched_as_deletion_witness :
  dispatched (hub (snd (_on_created Scenario.world_after_unlink "/r/endpoints/a"
                          (Scenario.start None))))
  = [("/r/endpoints/a", Some Deleted, None, 1000 # 1)].
Proof.
  apply (file_gone_at_open_is_dispatched_as_deletion Scenario.world_after_unlink
           "/r/endpoints/a" (100 # 1) (Scenario.start None));
    reflexivity || discriminate.
Defined.

(** X5.  When the file of a created or modified notification cannot be
    opened for another reason than ENOENT, the IOError is raised again:
    the callback ends with that exception, nothing is dispatched and
    nothing is sent. *)
Theorem unreadable_file_raises w filename mtime errno st :
  basename filename <> EmptyString ->
  starts_with_dot (basename filename) = false ->
  stat_mtime (fs w) filename = inr mtime ->
  read_file (fs w) filename = inl errno ->
  errno <> ENOENT ->
  _on_created w filename st = (Raise (env_error IOError errno), st) /\
  _on_modified w filename st = (Raise (env_error IOError errno), st).
Proof.
  intros Hne Hdot Hs Hr Herrno.
  destruct (not_dotfile_head filename Hne Hdot) as (c & Hc & Hcdot).
  destruct (callback_is_handle w filename st c Hc Hcdot) as [-> ->].
  unfold _handle, os_stat, open_read. rewrite Hs, Hr. run_monad. cbv beta iota.
  cbn [is_IOError env_error exn_cls errno_is_ENOENT exn_errno].
  apply Z.eqb_neq in Herrno. by rewrite Herrno.
Qed.

Lemma unreadable_file_raises_witness :
  _on_modified Scenario.world_no_permission "/r/endpoints/a" (Scenario.start None)
  = (Raise (env_error IOError 13), Scenario.start None).
Proof.
  apply (unreadable_file_raises Scenario.world_no_permission "/r/endpoints/a"
           (100 # 1) 13 (Scenario.start None));
    reflexivity || discriminate.
Defined.

Lemma basename_trailing_slash d : basename (d ++ "/") = EmptyString.
Proof.
  unfold basename.
  assert (H : forall d, exists h, rsplit_slash (d ++ "/") = (String slash h, EmptyString)
                                  \/ rsplit_slash (d ++ "/") = (h, EmptyString) /\ h <> EmptyString).
  { clear d. induction d as [|c d [h IH]]; simpl.
    - exists EmptyString. by left.
    - destruct IH as [-> | [-> Hh]].
      + eexists. right. split; [reflexivity | done].
      + destruct h as [|c' h']; [done |]. eexists. right. split; [reflexivity | done]. }
  destruct (H d) as [h [-> | [-> _]]]; reflexivity.
Qed.

(** X6.  A path that ends with a slash has an empty last segment, and
    [basename(filename)[0]] raises: each of the three callbacks ends with
    an IndexError before anything is read, dispatched or sent. *)
Theorem callbacks_raise_on_trailing_slash w d st :
  _on_created w (d ++ "/") st = (Raise IndexError, st) /\
  _on_modified w (d ++ "/") st = (Raise IndexError, st) /\
  _on_deleted w (d ++ "/") st = (Raise IndexError, st).
Proof.
  unfold _on_created, _on_modified, _on_deleted, getitem0.
  rewrite basename_trailing_slash. repeat split; reflexivity.
Qed.

(** ** Replay: what the filesystem scan returns *)

Lemma fs_sow_item_cases w root_len since filename :
  (unreadable w filename /\ exists e, fs_sow_item w root_len since filename = Raise e) \/
  (~ unreadable w filename /\
   exists o, fs_sow_item w root_len since filename = Ret o /\
             forall r, o = Some r <-> scanned w root_len since filename r).
Proof.
  unfold fs_sow_item, os_stat, open_read, unreadable, scanned.
  destruct (stat_mtime (fs w) filename) as [errno|mtime] eqn:Hs; cbn [obind].
  - cbn [is_IOError_or_OSError env_error exn_cls errno_is_ENOENT exn_errno].
    destruct (Z.eqb_spec errno ENOENT) as [->|Hne]; cbn [negb].
    + right. split.
      * intros [(e & [= <-] & He) | (m & e & [=] & _)]. done.
      * exists None. split; [done |]. intros r. split; [done |].
        intros (m & c & [=] & _).
    + left. split; [| eauto]. left. eauto.
  - destruct (read_file (fs w) filename) as [errno|content] eqn:Hr; cbn [obind].
    + cbn [is_IOError_or_OSError env_error exn_cls errno_is_ENOENT exn_errno].
      destruct (Z.eqb_spec errno ENOENT) as [->|Hne]; cbn [negb].
      * right. split.
        -- intros [(e & [=] & _) | (m & e & _ & [= <-] & He)]. done.
        -- exists None. split; [done |]. intros r. split; [done |].
           intros (m & c & _ & [=] & _).
      * left. split; [| eauto]. right. eauto.
    + right. split.
      { intros [(e & [=] & _) | (m & e & _ & [=] & _)]. }
      destruct (float_ge mtime since) eqn:Hge.
      * eexists. split; [reflexivity |]. intros r. split.
        -- intros [= <-]. exists mtime, content. by repeat split.
        -- intros (m & c & [= <-] & [= <-] & _ & ->). done.
      * exists None. split; [done |]. intros r. split; [done |].
        intros (m & c & [= <-] & _ & Hge' & _). congruence.
Qed.

Lemma fs_sow_items_records w root_len since files :
  (exists f, In f files /\ unreadable w f) /\
    (exists e, fs_sow_items w root_len since files = Raise e) \/
  (forall f, In f files -> ~ unreadable w f) /\
    exists items, fs_sow_items w root_len since files = Ret items /\
      forall r, In r items <-> exists f, In f files /\ scanned w root_len since f r.
Proof.
  induction files as [|f files IH]; cbn [fs_sow_items].
  - right. split; [by intros f [] |]. exists []. split; [done |].
    intros r. split; [done | by intros (f & [] & _)].
  - destruct (fs_sow_item_cases w root_len since f) as
      [[Hbad [e He]] | [Hok (o & Ho & Hscan)]].
    { left. rewrite He. split; [| by exists e]. exists f. split; [by left | done]. }
    rewrite Ho. cbn [obind].
    destruct IH as [[(f' & Hin & Hbad) [e He]] | [Hall (items & Hi & Hrec)]].
    { left. rewrite He. cbn [obind]. split; [| by exists e].
      exists f'. split; [by right | done]. }
    right. rewrite Hi. cbn [obind]. split.
    { intros f' [<- | Hin]; [done | by apply Hall]. }
    eexists. split; [reflexivity |]. intros r. split.
    + destruct o as [r0|].
      * intros [<- | Hin].
        -- exists f. split; [by left | by apply Hscan].
        -- apply Hrec in Hin as (f' & Hin & Hsc). exists f'. split; [by right | done].
      * intros Hin. apply Hrec in Hin as (f' & Hin & Hsc).
        exists f'. split; [by right | done].
    + intros (f' & [<- | Hin] & Hsc).
      * apply Hscan in Hsc as ->. by left.
      * assert (In r items) by (apply Hrec; eauto).
        destruct o; [by right | done].
Qed.

(** X7.  When the filesystem scan of a replay returns, [glob.glob] has
    returned for the joined pathname, and the records of the scan are
    exactly those of the files that it found and that could be stat'ed
    and read with a modification time not before [since]: the timestamp
    is the modification time cut to whole seconds, the path is the file
    name without the root in front of it.  A file that is gone at
    [os.stat] or at [open] leaves no record. *)
Theorem get_fs_sow_records w r directory pattern since items :
  _get_fs_sow w r directory pattern since = Ret items ->
  exists files,
    glob_glob w (path_join directory pattern) = Ret files /\
    forall item,
      In item items <->
      exists filename,
        In filename files /\
        scanned w (String.length r) since filename item.
Proof.
  unfold _get_fs_sow. intros Hrun.
  destruct (glob_glob w (path_join directory pattern)) as [files|];
    cbn [obind] in Hrun; [| discriminate].
  exists files. split; [done |]. intros item.
  destruct (fs_sow_items_records w (String.length r) since files)
    as [[_ [e He]] | [_ (items' & Hi & Hrec)]].
  { rewrite He in Hrun. discriminate. }
  rewrite Hi in Hrun. cbn [obind] in Hrun. injection Hrun as <-.
  unfold sorted. by rewrite sort_by_In.
Qed.

Lemma get_fs_sow_records_witness :
  exists files,
    glob_glob Scenario.the_world (path_join "/r/endpoints" "*") = Ret files /\
    forall item,
      In item [(70, "/endpoints/b", "B"); (100, "/endpoints/a", "A2")] <->
      exists filename,
        In filename files /\
        scanned Scenario.the_world (String.length "/r") (JInt 0) filename item.
Proof.
  apply (get_fs_sow_records Scenario.the_world "/r" "/r/endpoints" "*" (JInt 0)).
  reflexivity.
Defined.

(** X8.  The filesystem scan of a replay returns if and only if
    [glob.glob] returns for the joined pathname (it raises when it lists
    a directory for a pattern that does not compile) and none of the
    files that it found fails at [os.stat] or at [open] with an error
    other than ENOENT; one such file makes the whole scan raise. *)
Theorem get_fs_sow_returns_iff w r directory pattern since :
  (exists items, _get_fs_sow w r directory pattern since = Ret items) <->
  (exists files,
     glob_glob w (path_join directory pattern) = Ret files /\
     forall filename, In filename files -> ~ unreadable w filename).
Proof.
  unfold _get_fs_sow.
  destruct (glob_glob w (path_join directory pattern)) as [files|e0]; cbn [obind].
  2:{ split; [by intros [items [=]] | by intros (files & [=] & _)]. }
  destruct (fs_sow_items_records w (String.length r) since files)
    as [[(f & Hin & Hbad) [e He]] | [Hall (items' & Hi & _)]].
  - rewrite He. cbn [obind]. split.
    + intros [items [=]].
    + intros (files' & [= <-] & Hall). destruct (Hall f Hin Hbad).
  - rewrite Hi. cbn [obind]. split; [| eauto].
    intros _. exists files. by split.
Qed.

(** ** Replay: order and duplicates *)


Section SortedBy.
Context {A : Type} (leb : A -> A -> bool) (R : A -> A -> Prop).
Hypothesis R_trans : forall x y z, R x y -> R y z -> R x z.
Hypothesis leb_true : forall x y, leb x y = true -> R x y.
Hypothesis leb_false : forall x y, leb x y = false -> R y x.


End SortedBy.



Lemma published_In prev items item :
  In item (published prev items) -> In item items.
Proof.
  revert prev. induction items as [|x r IH]; intros prev; simpl; [done |].
  destruct (same_path prev (rec_path x)).
  - intros H. right. by apply (IH prev).
  - intros [<- | H]; [by left | right; by apply (IH _ H)].
Qed.




Lemma published_keeps_paths prev items item :
  In item items ->
  same_path prev (rec_path item) = true \/
  exists item', In item' (published prev items) /\ rec_path item' = rec_path item.
Proof.
  revert prev. induction items as [|x r IH]; intros prev; simpl; [done |].
  intros [<- | Hin].
  - destruct (same_path prev (rec_path x)) eqn:E; [by left |].
    right. exists x. split; [by left | done].
  - destruct (same_path prev (rec_path x)) eqn:E.
    + by apply IH.
    + destruct (IH (Some (rec_path x)) Hin) as [Hsame | (item' & Hin' & Hp)].
      * right. exists x. split; [by left |].
        cbn [same_path] in Hsame. apply String.eqb_eq in Hsame. done.
      * right. exists item'. split; [by right | done].
Qed.

(** X10.  The comparison with the previous path never loses a path and
    never lets a path follow itself: the loop of a replay publishes a
    subsequence of the merged records in which no record comes right
    after a record of the same path, and in which every path of the
    merged records occurs. *)
Theorem replay_publishes_every_path w h ti items :
  (forall st, publish_merged w h ti None items st
              = for_each (published None items) (_publish w h ti) st) /\
  no_repeat None (published None items) /\
  (forall item, In item (published None items) -> In item items) /\
  (forall item, In item items ->
     exists item', In item' (published None items) /\
                   rec_path item' = rec_path item).
Proof.
  split; [intros st; by rewrite publish_merged_published |].
  split; [apply published_no_repeat |].
  split; [intros item; apply published_In |].
  intros item Hin.
  destruct (published_keeps_paths None items item Hin) as [H | H]; [done | exact H].
Qed.

(** ** Registration *)

(** X11.  A registration puts the new subscription at the end of the
    bucket of the normalized directory, behind the subscriptions that
    were there, and changes no other bucket; this is done before the
    replay, so it also holds when the replay ends with an exception. *)
Theorem register_appends_subscription w directory pattern h ti since st :
  let d := normalized w (root (hub st)) directory in
  let st' := snd (register w directory pattern h ti since st) in
  handlers (hub st') !! d
  = Some (default [] (handlers (hub st) !! d)
          ++ [{| sub_pattern := pattern; sub_handler := h; sub_impl := ti |}])%list /\
  (forall d', d' <> d -> handlers (hub st') !! d' = handlers (hub st) !! d') /\
  root (hub st') = root (hub st) /\
  impl (hub st') = impl (hub st).
Proof.
  intros d st'. subst st'. rewrite register_hub. fold d. unfold registered.
  cbn [handlers root impl]. split; [by rewrite lookup_insert_eq |].
  split; [| done]. intros d' Hne. by rewrite lookup_insert_ne.
Qed.

Lemma prefix_app r x : String.prefix r (r ++ x) = true.
Proof.
  induction r as [|c r IH]; simpl; [by destruct x |].
  destruct (ascii_dec c c); [exact IH | done].
Qed.

Lemma lstrip_slash_head d :
  lstrip_slash d = EmptyString \/
  exists c s, lstrip_slash d = String c s /\ Ascii.eqb c slash = false.
Proof.
  induction d as [|c d IH]; simpl; [by left |].
  destruct (Ascii.eqb c slash) eqn:E; [exact IH |]. right. by exists c, d.
Qed.

(** X12.  An absolute directory never replaces the root in [register].
    The leading slashes of the directory are stripped before the join,
    which on its own drops everything in front of an absolute component:
    the path handed to [realpath] starts with the text of the root, and
    any number of leading slashes leads to the same bucket.  This is a
    property of the text only: the joined path can hold [..], and where
    [realpath] takes it is the filesystem's affair. *)
Theorem register_join_keeps_root w r directory :
  String.prefix r (path_join r (lstrip_slash directory)) = true /\
  (forall n, normalized w r (Nat.iter n (String slash) directory)
             = normalized w r directory) /\
  path_join r (String slash directory) = String slash directory.
Proof.
  split; [| split].
  - destruct (lstrip_slash_head directory) as [-> | (c & s & -> & Hc)];
      unfold path_join.
    + destruct (_ || _); [| apply prefix_app].
      clear. induction r as [|c r IH]; simpl; [done |].
      destruct (ascii_dec c c); [exact IH | done].
    + rewrite Hc. destruct (_ || _); apply prefix_app.
  - induction n as [|n IH]; [done |]. rewrite <- IH. reflexivity.
  - reflexivity.
Qed.

(* the text that is joined is not looked into *)
Example register_join_keeps_dotdot :
  path_join "/r" (lstrip_slash "/../etc") = "/r/../etc".
Proof. reflexivity. Qed.

(** ** Garbage collection *)

Lemma gc_dir_hub d st :
  gc_dir d st
  = (Ret tt,
     {| hub := collected d (live_subs (conns st) (default [] (handlers (hub st) !! d)))
                 (hub st);
        conns := conns st |}).
Proof. by rewrite gc_dir_run. Qed.

Lemma key_of_map {A} (m : gmap string A) d :
  d ∈ (map_to_list m).*1 <-> is_Some (m !! d).
Proof.
  rewrite list_elem_of_fmap. split.
  - intros ([d' x] & -> & Hin). apply elem_of_map_to_list in Hin. by exists x.
  - intros [x Hx]. exists (d, x). split; [done |]. by apply elem_of_map_to_list.
Qed.

Lemma live_subs_twice cs bucket :
  live_subs cs (live_subs cs bucket) = live_subs cs bucket.
Proof.
  unfold live_subs. induction bucket as [|s b IH]; simpl; [done |].
  destruct (ws_connection (cs !!! sub_handler s)) eqn:E; simpl; [| done].
  by rewrite E, IH.
Qed.

Lemma remove_dir_absent d w : ~ In d w -> remove_dir d w = w.
Proof.
  unfold remove_dir. induction w as [|x w IH]; simpl; [done |].
  intros Hn. destruct (String.eqb_spec x d) as [-> | Hne]; simpl.
  - destruct Hn. by left.
  - rewrite IH; [done |]. intros H. apply Hn. by right.
Qed.

(* a pass over directories whose empty buckets are not watched leaves the
   watcher as it is *)
Lemma gc_loop_quiet ks :
  forall st,
  (forall k, k ∈ ks ->
     live_subs (conns st) (default [] (handlers (hub st) !! k)) = [] ->
     ~ In k (watcher (hub st))) ->
  (forall k, k ∈ ks ->
     live_subs (conns st) (default [] (handlers (hub st) !! k))
     = default [] (handlers (hub st) !! k)) ->
  watcher (hub (snd (for_each ks gc_dir st))) = watcher (hub st) /\
  forall d, is_Some (handlers (hub st) !! d) ->
            handlers (hub (snd (for_each ks gc_dir st))) !! d = handlers (hub st) !! d.
Proof.
  induction ks as [|k ks IH]; intros st Hquiet Hlive; [done |].
  cbn [for_each]. unfold bind. rewrite gc_dir_hub.
  set (st1 := {| hub := _; conns := conns st |}).
  assert (Hw1 : watcher (hub st1) = watcher (hub st)).
  { subst st1. cbn [hub collected watcher].
    destruct (live_subs _ _) eqn:El; [| done].
    apply remove_dir_absent. apply Hquiet; [by left | done]. }
  assert (Hh1 : forall d, is_Some (handlers (hub st) !! d) ->
                          handlers (hub st1) !! d = handlers (hub st) !! d).
  { intros d [b Hb]. subst st1. cbn [hub collected handlers].
    destruct (decide (d = k)) as [->|Hne]; [| by rewrite lookup_insert_ne].
    rewrite lookup_insert_eq, Hlive by (by left). by rewrite Hb. }
  assert (Hd1 : forall d, default [] (handlers (hub st1) !! d)
                          = default [] (handlers (hub st) !! d)).
  { intros d. destruct (handlers (hub st) !! d) as [b|] eqn:Hb.
    - by rewrite Hh1, Hb.
    - subst st1. cbn [hub collected handlers].
      destruct (decide (d = k)) as [->|Hne]; [| by rewrite lookup_insert_ne, Hb].
      rewrite lookup_insert_eq, Hb. done. }
  destruct (IH st1) as [Hw Hh].
  - intros k' Hk'. rewrite Hd1, Hw1. apply Hquiet. by right.
  - intros k' Hk'. rewrite Hd1. apply Hlive. by right.
  - split; [by rewrite Hw |]. intros d Hd. rewrite Hh, Hh1; [done | done |].
    by rewrite Hh1.
Qed.

(** X13.  [_gc] is idempotent: a second run right after the first finds
    nothing to collect and leaves the buckets, the watcher and the
    handler objects as the first run left them. *)
Theorem gc_twice_is_gc_once st :
  let st1 := snd (_gc st) in
  let st2 := snd (_gc st1) in
  handlers (hub st2) = handlers (hub st1) /\
  watcher (hub st2) = watcher (hub st1) /\
  conns st2 = conns st1.
Proof.
  intros st1 st2.
  assert (Hgc : forall s, snd (_gc s)
            = snd (for_each ((map_to_list (handlers (hub s))).*1) gc_dir s)).
  { intros s. unfold _gc. run_monad. cbv beta iota. by rewrite map_fst_fmap. }
  destruct (gc_loop_run ((map_to_list (handlers (hub st))).*1) st)
    as (st' & Hrun & Hconns & Hh & Hw); [apply NoDup_fst_map_to_list |].
  assert (Hst1 : st1 = st') by (subst st1; by rewrite Hgc, Hrun).
  (* the buckets of the first run hold live subscriptions only *)
  assert (Hlive : forall k,
            live_subs (conns st1) (default [] (handlers (hub st1) !! k))
            = default [] (handlers (hub st1) !! k)).
  { intros k. rewrite Hst1, Hconns, Hh. destruct (decide _) as [Hk|Hk].
    - cbn [default from_option id]. apply live_subs_twice.
    - destruct (handlers (hub st) !! k) eqn:Hb; [| done].
      destruct Hk. apply key_of_map. by rewrite Hb. }
  assert (Hquiet : forall k,
            live_subs (conns st1) (default [] (handlers (hub st1) !! k)) = [] ->
            is_Some (handlers (hub st1) !! k) ->
            ~ In k (watcher (hub st1))).
  { intros k Hnil Hsome. rewrite Hlive in Hnil. rewrite Hst1 in *.
    rewrite Hw. intros [_ Hn]. apply Hn. rewrite Hh in Hnil, Hsome.
    destruct (decide _) as [Hk|Hk]; [by split |].
    destruct Hk. by apply key_of_map. }
  destruct (gc_loop_quiet ((map_to_list (handlers (hub st1))).*1) st1) as [Hw2 Hh2].
  { intros k Hk Hnil. apply Hquiet; [done |]. by apply key_of_map. }
  { intros k _. apply Hlive. }
  destruct (gc_loop_run ((map_to_list (handlers (hub st1))).*1) st1)
    as (st2' & Hrun2 & Hconns2 & _ & _); [apply NoDup_fst_map_to_list |].
  subst st2. rewrite Hgc. split; [| split].
  - apply map_eq. intros d. destruct (handlers (hub st1) !! d) as [b|] eqn:Hb.
    + rewrite Hh2, Hb; [done |]. by rewrite Hb.
    + rewrite Hrun2 in Hh2 |- *. cbn [snd] in *.
      destruct (gc_loop_run ((map_to_list (handlers (hub st1))).*1) st1)
        as (st3 & Hrun3 & _ & Hh3 & _); [apply NoDup_fst_map_to_list |].
      rewrite Hrun3 in Hrun2. injection Hrun2 as <-. rewrite Hh3.
      destruct (decide _) as [Hk|Hk]; [| done].
      apply key_of_map in Hk. rewrite Hb in Hk. by destruct Hk.
  - exact Hw2.
  - by rewrite Hrun2.
Qed.

Lemma gc_root st : root (hub (snd (_gc st))) = root (hub st).
Proof.
  set (P := fun s : state => root (hub s) = root (hub st)).
  change (P (snd (_gc st))). unfold _gc.
  apply preserves_bind; [apply preserves_get_state | intros st0 | done].
  apply preserves_for_each. intros d _ s Hs. rewrite gc_dir_hub. exact Hs.
Qed.

(* a turn of the loop of [_notify] reads and writes the handler objects
   only: on two heaps with the same handler objects it ends alike *)
Lemma notify_sub_conns_only w root_len path filename op content when s p1 p2 cs :
  let r1 := notify_sub w root_len path filename op content when s
              {| hub := p1; conns := cs |} in
  let r2 := notify_sub w root_len path filename op content when s
              {| hub := p2; conns := cs |} in
  fst r1 = fst r2 /\ conns (snd r1) = conns (snd r2).
Proof.
  unfold notify_sub, active. run_monad. cbv beta iota. cbn [conns].
  destruct (ws_connection (cs !!! sub_handler s)) eqn:Hlive; cbn [negb]; [| done].
  unfold fnmatch_fnmatch. destruct (compiles (sub_pattern s)); [| done].
  cbv beta iota.
  destruct (fnmatch filename (sub_pattern s)); [| done].
  destruct (on_event (sub_impl s) (drop_prefix root_len path) op content)
    as [[body|]|e]; cbv beta iota.
  - unfold write_message. cbv zeta. cbn [conns]. by rewrite Hlive.
  - done.
  - destruct (is_StandardError e); [| done].
    rewrite !send_error_msg_live by exact Hlive. done.
Qed.

Lemma notify_loop_conns_only w root_len path filename op content when subs :
  forall st1 st2,
  conns st1 = conns st2 ->
  let r1 := for_each subs (notify_sub w root_len path filename op content when) st1 in
  let r2 := for_each subs (notify_sub w root_len path filename op content when) st2 in
  fst r1 = fst r2 /\ conns (snd r1) = conns (snd r2).
Proof.
  induction subs as [|s subs IH]; intros st1 st2 Hc; [done |].
  destruct st1 as [p1 cs1], st2 as [p2 cs2]. cbn [conns] in Hc. subst cs2.
  cbn [for_each]. unfold bind.
  pose proof (notify_sub_conns_only w root_len path filename op content when s
                p1 p2 cs1) as H. cbv zeta in H.
  destruct (notify_sub _ _ _ _ _ _ _ s {| hub := p1 |}) as [o1 st1'].
  destruct (notify_sub _ _ _ _ _ _ _ s {| hub := p2 |}) as [o2 st2'].
  cbn [fst snd] in H. destruct H as [<- Hc'].
  destruct o1; [by apply IH | done].
Qed.

Lemma dead_calls_keep h h' : calls_keep h' (fun s => active s h = false).
Proof.
  split.
  - intros f s Hs. unfold write_message.
    destruct (ws_connection (conns s !!! h')) eqn:Hlive; [| done].
    cbn [snd]. rewrite active_set_conn. destruct (decide (h' = h)) as [->|]; [| done].
    unfold active in Hs. congruence.
  - intros s Hs. unfold close.
    destruct (ws_connection (conns s !!! h')) eqn:Hlive; [| done].
    cbn [snd]. rewrite active_set_conn. by destruct (decide (h' = h)).
Qed.

(* the subscriptions whose connection was not live at some earlier time
   take no part in the loop *)
Lemma notify_loop_live_only w root_len path filename op content when
    (live0 : nat -> bool) subs :
  forall st,
  (forall h, live0 h = false -> active st h = false) ->
  for_each subs (notify_sub w root_len path filename op content when) st
  = for_each (List.filter (fun s => live0 (sub_handler s)) subs)
      (notify_sub w root_len path filename op content when) st.
Proof.
  induction subs as [|s subs IH]; intros st Hdead; [done |].
  cbn [for_each List.filter]. destruct (live0 (sub_handler s)) eqn:El.
  - cbn [for_each]. unfold bind.
    assert (Hkeep : forall h, live0 h = false ->
              active (snd (notify_sub w root_len path filename op content when s st)) h
              = false).
    { intros h Hh.
      apply (preserves_notify_sub w root_len path filename op content when s
               (fun s' => active s' h = false)); [apply dead_calls_keep |].
      by apply Hdead. }
    destruct (notify_sub _ _ _ _ _ _ _ s st) as [[[]|e] st']; [| done].
    by apply IH.
  - unfold bind. unfold notify_sub at 1. run_monad. cbv beta iota.
    rewrite (Hdead _ El). cbn [negb]. by apply IH.
Qed.

(** X14.  Garbage collection is invisible to the subscribers: a dispatch
    that follows a run of [_gc] ends the same way and leaves every
    handler object in the same state as the same dispatch without the
    run before it. *)
Theorem gc_does_not_change_dispatch w path op content when st :
  let with_gc := _notify w path op content when (snd (_gc st)) in
  let without := _notify w path op content when st in
  fst with_gc = fst without /\ conns (snd with_gc) = conns (snd without).
Proof.
  cbv zeta.
  assert (Hgc : snd (_gc st)
            = snd (for_each ((map_to_list (handlers (hub st))).*1) gc_dir st)).
  { unfold _gc. run_monad. cbv beta iota. by rewrite map_fst_fmap. }
  destruct (gc_loop_run ((map_to_list (handlers (hub st))).*1) st)
    as (stg & Hrun & Hconns & Hh & _); [apply NoDup_fst_map_to_list |].
  pose proof (gc_root st) as Hroot. rewrite Hgc, Hrun in *. cbn [snd] in *.
  unfold _notify, handlers_getitem. run_monad. cbv beta iota.
  cbn [hub set_hub set_dispatched handlers root]. rewrite Hroot, Hh.
  destruct (handlers (hub st) !! dirname path) as [b|] eqn:Hb.
  - destruct (decide _) as [_|Hk].
    2:{ destruct Hk. apply key_of_map. by rewrite Hb. }
    cbn [default from_option id].
    set (stA := set_hub _ st). set (stB := set_hub _ stg).
    rewrite (notify_loop_live_only w _ path _ op content when
               (fun h => ws_connection (conns st !!! h)) b stA) by done.
    apply (notify_loop_conns_only w _ path _ op content when _ stB stA).
    subst stA stB. by cbn [conns set_hub].
  - destruct (decide _) as [Hk|_].
    { apply key_of_map in Hk. rewrite Hb in Hk. by destruct Hk. }
    by cbn [fst snd conns set_hub].
Qed.

(** ** Watched directories and buckets *)

(** A property of the hub that registration, one turn of [_gc], the
    binding of an empty bucket and the history keep is kept by every
    call. *)
Section HubInvariant.
Variable I : pubsub -> Prop.
Hypothesis I_registered :
  forall p d pattern h ti, I p -> I (registered d pattern h ti p).
Hypothesis I_collected :
  forall p d cs, I p ->
    I (collected d (live_subs cs (default [] (handlers p !! d))) p).
Hypothesis I_empty_bucket :
  forall p d, handlers p !! d = None -> I p ->
    I (set_handlers (<[d := []]> (handlers p)) p).
Hypothesis I_dispatched : forall p l, I p -> I (set_dispatched l p).

Let P (st : state) : Prop := I (hub st).

Lemma hub_inv_calls_keep h : calls_keep h P.
Proof.
  apply frames_out_calls_keep. intros st st' Hh _ H. unfold P. by rewrite Hh.
Qed.

Lemma hub_inv_notify w path op content when :
  preserves P (_notify w path op content when).
Proof.
  unfold _notify. apply preserves_bind.
  { intros st H. by apply I_dispatched. }
  intros _. apply preserves_bind; [apply preserves_get_state | intros st0].
  apply preserves_bind.
  - apply preserves_handlers_getitem. intros st Hd H. by apply I_empty_bucket.
  - intros subs. apply preserves_notify_loop. apply hub_inv_calls_keep.
Qed.

Lemma hub_inv_handle w operation filename :
  preserves P (_handle w operation filename).
Proof.
  unfold _handle. apply preserves_bind.
  - apply preserves_try_except.
    + apply preserves_bind; [apply preserves_lift | intros mtime].
      apply preserves_bind; [apply preserves_lift | intros content].
      apply preserves_ret.
    + intros e. apply preserves_if; [apply preserves_raise | apply preserves_ret].
  - intros [[op content] when]. apply hub_inv_notify.
Qed.

Lemma hub_inv_register w directory pattern h ti since :
  preserves P (register w directory pattern h ti since).
Proof. intros st H. unfold P. rewrite register_hub. by apply I_registered. Qed.

Lemma hub_inv_run_call w c : preserves P (run_call w c).
Proof.
  destruct c; simpl.
  - apply hub_inv_register.
  - unfold on_message. apply preserves_try_except.
    2:{ intros e. apply preserves_send_error_msg, hub_inv_calls_keep. }
    apply preserves_bind; [apply preserves_lift | intros message].
    apply preserves_bind; [apply preserves_lift | intros topic].
    apply preserves_bind; [apply preserves_get_state | intros st0].
    apply preserves_bind; [apply preserves_lift | intros [ti|]].
    2:{ apply preserves_send_error_msg, hub_inv_calls_keep. }
    apply preserves_bind; [apply preserves_lift | intros pairs].
    apply preserves_bind.
    + apply preserves_for_each. intros dp _. apply hub_inv_register.
    + intros _. apply preserves_if; [apply hub_inv_calls_keep | apply preserves_ret].
  - unfold _on_created. apply preserves_bind; [apply preserves_lift | intros ch].
    apply preserves_if; [apply preserves_ret | apply hub_inv_handle].
  - unfold _on_modified. apply preserves_bind; [apply preserves_lift | intros ch].
    apply preserves_if; [apply preserves_ret | apply hub_inv_handle].
  - unfold _on_deleted. apply preserves_bind; [apply preserves_lift | intros ch].
    repeat (apply preserves_if; [apply preserves_ret |]).
    apply hub_inv_notify.
  - unfold _gc. apply preserves_bind; [apply preserves_get_state | intros st0].
    apply preserves_for_each. intros d _ st H. rewrite gc_dir_hub.
    by apply I_collected.
  - by intros st H.
  - by intros st H.
Qed.

Lemma hub_inv_run_calls calls :
  forall st, I (hub st) -> I (hub (run_calls calls st)).
Proof.
  induction calls as [|[w c] calls IH]; intros st H; simpl; [done |].
  apply IH. by apply hub_inv_run_call.
Qed.
End HubInvariant.

Lemma live_subs_In cs bucket s : In s (live_subs cs bucket) -> In s bucket.
Proof. unfold live_subs. intros H. by apply filter_In in H as [H _]. Qed.

(** X15.  Whatever calls a hub that started empty has seen, a directory
    is in the watcher exactly when its bucket holds at least one
    subscription, whether its connection is live or dead and not yet
    collected. *)
Theorem watched_iff_bucket_not_empty r impls cs calls :
  watched_iff_subscribed
    (hub (run_calls calls {| hub := new_pubsub r impls; conns := cs |})).
Proof.
  apply (hub_inv_run_calls watched_iff_subscribed).
  - intros p d pattern h ti Hp d'. unfold watched_iff_subscribed in Hp.
    unfold registered. cbn [watcher handlers].
    destruct (decide (d' = d)) as [->|Hne].
    + rewrite lookup_insert_eq. split.
      * intros _. destruct (default [] (handlers p !! d)); simpl; eauto.
      * intros _. destruct (handlers p !! d) as [[|s0 b]|] eqn:Hb;
          cbn [default from_option id]; try by left.
        apply Hp. eauto.
    + rewrite lookup_insert_ne by done. rewrite <- Hp.
      destruct (default [] (handlers p !! d)); [| done].
      unfold add_dir. simpl. split; [intros [H | H]; [congruence | done] | by right].
  - intros p d cs' Hp d'. unfold watched_iff_subscribed in Hp.
    unfold collected. cbn [watcher handlers].
    set (live := live_subs cs' (default [] (handlers p !! d))).
    destruct (decide (d' = d)) as [->|Hne].
    + rewrite lookup_insert_eq. destruct live as [|s0 l] eqn:El.
      * rewrite remove_dir_In. split; [by intros [_ H] | by intros (s & l & [=])].
      * split; [eauto |]. intros _. apply Hp.
        assert (Hin : In s0 (default [] (handlers p !! d))).
        { apply (live_subs_In cs'). fold live. rewrite El. by left. }
        destruct (handlers p !! d) as [[|s1 b]|]; cbn [default from_option id] in Hin;
          [done | eauto | done].
    + rewrite lookup_insert_ne by done. rewrite <- Hp.
      destruct live; [| done]. rewrite remove_dir_In. tauto.
  - intros p d Hd Hp d'. unfold watched_iff_subscribed in Hp.
    cbn [set_handlers watcher handlers].
    destruct (decide (d' = d)) as [->|Hne].
    + rewrite lookup_insert_eq. rewrite Hp, Hd.
      split; [by intros (s & l & [=]) | by intros (s & l & [=])].
    + by rewrite lookup_insert_ne.
  - intros p l Hp. exact Hp.
  - intros d. cbn [new_pubsub hub watcher handlers]. rewrite lookup_empty.
    split; [done | by intros (s & l & [=])].
Qed.

(** ** Requests that are rejected late, requests that go through *)

(** X16.  When the topic exists but its [subscribe] rejects the request
    with an exception, the (open) connection gets one error frame with
    the text of the exception and is closed; no subscription is
    registered and no directory is watched. *)
Theorem on_message_subscribe_raises w self jmessage message topic ti err st :
  active st self = true ->
  json_loads w jmessage = Some message ->
  getitem message "topic" = Ret topic ->
  impl_get (hub st) topic = Ret (Some ti) ->
  subscribe ti message = Raise err ->
  on_message w self jmessage st
  = (Ret tt, set_conn self (errored w (exn_str err) (conns st !!! self)) st).
Proof.
  intros Hlive Hj Ht Hi Hs. unfold on_message. run_monad. rewrite Hj.
  cbv beta iota. rewrite Ht. cbv beta iota. rewrite Hi. cbv beta iota.
  rewrite Hs. cbv beta iota. by apply send_error_msg_live.
Qed.

Lemma on_message_subscribe_raises_witness :
  on_message Scenario.strict_world 1%nat Scenario.subscribe_request
    Scenario.strict_start
  = (Ret tt,
     set_conn 1%nat
       (errored Scenario.strict_world "'identity-group' is a required property"
          Scenario.open_conn)
       Scenario.strict_start).
Proof.
  exact (on_message_subscribe_raises Scenario.strict_world 1%nat
           Scenario.subscribe_request (JObj [("topic", JStr "/endpoints")])
           (JStr "/endpoints") Scenario.strict_impl
           (Exn (ExceptionSub "ValidationError") None
              "'identity-group' is a required property")
           Scenario.strict_start eq_refl eq_refl eq_refl eq_refl eq_refl).
Defined.

(** X17.  A request without [snapshot] that goes through without an
    exception returns, leaves the connection open, and has written to it
    the replay messages of all its (directory, pattern) pairs, in the
    order of the pairs, and nothing else. *)
Theorem on_message_subscribes_and_replays w self jmessage message topic ti pairs
    frames st :
  active st self = true ->
  json_loads w jmessage = Some message ->
  getitem message "topic" = Ret topic ->
  impl_get (hub st) topic = Ret (Some ti) ->
  subscribe ti message = Ret pairs ->
  truthy (message_get message "snapshot" (JBool false)) = false ->
  request_frames w (root (hub st)) pairs (message_get message "since" (JInt 0)) ti
  = Some frames ->
  let run := on_message w self jmessage st in
  fst run = Ret tt /\
  conns (snd run) !!! self
  = {| ws_connection := true;
       wire := (wire (conns st !!! self) ++ List.map Written frames)%list |}.
Proof.
  intros Hlive Hj Ht Hi Hs Hsnap Hf.
  unfold on_message. run_monad. rewrite Hj. cbv beta iota.
  rewrite Ht. cbv beta iota. rewrite Hi. cbv beta iota. rewrite Hs. cbv beta iota.
  destruct (registers_clean w (message_get message "since" (JInt 0)) self ti pairs
              st frames Hlive Hf) as (st1 & Hrun & _ & Hc).
  rewrite Hrun. cbv beta iota. rewrite Hsnap. by cbn [fst snd].
Qed.

Lemma on_message_subscribes_and_replays_witness :
  let run := on_message Scenario.the_world 1%nat Scenario.subscribe_request
               (Scenario.start None) in
  fst run = Ret tt /\
  conns (snd run) !!! 1%nat
  = {| ws_connection := true;
       wire := (wire (conns (Scenario.start None) !!! 1%nat)
                ++ List.map Written
                     [Message [("name", JStr "/endpoints/b")] (70 # 1);
                      Message [("name", JStr "/endpoints/a")] (100 # 1)])%list |}.
Proof.
  apply (on_message_subscribes_and_replays Scenario.the_world 1%nat
           Scenario.subscribe_request (JObj [("topic", JStr "/endpoints")])
           (JStr "/endpoints") (Scenario.echo_impl None) [("/endpoints", "*")]);
    reflexivity.
Defined.

(* the request of the identity-group topic that names no group: the
   directory of the pair is [/identity-groups/*], and the replay goes
   through every group *)
Example identity_group_request_replays_every_group :
  let run := on_message IdentityScenario.the_world 1%nat
               IdentityScenario.every_group_request IdentityScenario.start in
  let message (group : string) (identity : Z) :=
    [("topic", JStr "/identity-groups"); ("identity-group", JStr group);
     ("identity", JInt identity); ("app", JNull); ("host", JNull);
     ("sow", JBool true)] in
  fst run = Ret tt /\
  wire (conns (snd run) !!! 1%nat)
  = [Written (Message (message "web" 1) (10 # 1));
     Written (Message (message "db" 7) (20 # 1));
     Written (Message (message "web" 2) (30 # 1))].
Proof. vm_compute. split; reflexivity. Qed.



(** ** The identity-group topic *)

Lemma drop_prefix_app p s : drop_prefix (String.length p) (p ++ s) = s.
Proof. induction p as [|c p IH]; simpl; [done | exact IH]. Qed.

Lemma rsplit_no_slash i : no_slash i = true -> rsplit_slash i = (EmptyString, i).
Proof.
  induction i as [|c i IH]; simpl; [done |]. intros [Hc Hi]%andb_prop.
  rewrite (IH Hi). by destruct (Ascii.eqb c slash).
Qed.

Lemma rsplit_slash_last g i :
  no_slash i = true -> rsplit_slash (g ++ String slash i) = (g ++ "/", i).
Proof.
  intros Hi. induction g as [|c g IH]; simpl.
  - by rewrite (rsplit_no_slash i Hi).
  - rewrite IH. by destruct g.
Qed.

Lemma drop_last_slash g : IdentityGroup.drop_last (g ++ "/") = g.
Proof.
  induction g as [|c g IH]; simpl; [done |]. rewrite IH. by destruct g.
Qed.

Lemma rsplit1_last g i :
  no_slash i = true -> IdentityGroup.rsplit1 (g ++ String slash i) = Some (g, i).
Proof.
  intros Hi. unfold IdentityGroup.rsplit1. rewrite (rsplit_slash_last g i Hi).
  rewrite drop_last_slash. by destruct g.
Qed.

Lemma rsplit1_no_slash i : no_slash i = true -> IdentityGroup.rsplit1 i = None.
Proof.
  intros Hi. unfold IdentityGroup.rsplit1. by rewrite (rsplit_no_slash i Hi).
Qed.

Lemma fnmatch_star_any name : fnmatch name "*" = true.
Proof.
  unfold fnmatch. change (translate "*") with [TStar].
  induction (list_ascii_of_string name) as [|c l IH]; [done | exact IH].
Qed.

(* the identity-group interpretation under its prefix *)
Lemma identity_on_event_under_prefix yu rest op content :
  IdentityGroup.on_event yu ("/identity-groups/" ++ rest) op content
  = match IdentityGroup.rsplit1 rest with
    | None => Raise IdentityGroup.unpack_error
    | Some (identity_group, identity) =>
        match IdentityGroup.py_int identity with
        | None => Raise (IdentityGroup.invalid_literal identity)
        | Some n =>
            let message :=
              [("topic", JStr "/identity-groups");
               ("identity-group", JStr identity_group);
               ("identity", JInt n);
               ("app", JNull);
               ("host", JNull);
               ("sow", JBool match op with None => true | Some _ => false end)] in
            match content with
            | Some (String c r) =>
                obind (yu message (String c r)) (fun m => Ret (Some m))
            | _ => Ret (Some message)
            end
        end
    end.
Proof.
  unfold IdentityGroup.on_event.
  change "/identity-groups/" with IdentityGroup.prefix.
  by rewrite prefix_app, drop_prefix_app.
Qed.

(* what the interpretation raises when it is given no content *)
Lemma identity_on_event_raises yu filename op content e :
  content = None \/ content = Some EmptyString ->
  IdentityGroup.on_event yu filename op content = Raise e ->
  exn_cls e = StandardErrorSub "ValueError".
Proof.
  intros Hc. unfold IdentityGroup.on_event.
  destruct (negb _); [done |].
  destruct (IdentityGroup.rsplit1 _) as [[g i]|]; [| by intros [= <-]].
  destruct (IdentityGroup.py_int i); [| by intros [= <-]].
  by destruct Hc as [-> | ->].
Qed.

(** X19.  The message of an identity file.  For the name
    [/identity-groups/<group>/<identity>], where the last component has
    no slash and reads as an integer, and with no content (a deletion, an
    empty file), the topic returns the dictionary with the topic, the
    group (everything up to the last slash), the identity as a number,
    [app] and [host] set to [None], and [sow] true exactly for a replayed
    record ([operation is None]). *)
Theorem identity_group_event_message yu g i n op content :
  no_slash i = true ->
  IdentityGroup.py_int i = Some n ->
  content = None \/ content = Some EmptyString ->
  IdentityGroup.on_event yu ("/identity-groups/" ++ g ++ "/" ++ i) op content
  = Ret (Some [("topic", JStr "/identity-groups");
               ("identity-group", JStr g);
               ("identity", JInt n);
               ("app", JNull);
               ("host", JNull);
               ("sow", JBool match op with None => true | Some _ => false end)]).
Proof.
  intros Hi Hn Hc. rewrite identity_on_event_under_prefix.
  change (g ++ "/" ++ i) with (g ++ String slash i).
  rewrite (rsplit1_last g i Hi), Hn. by destruct Hc as [-> | ->].
Qed.

Lemma identity_group_event_message_witness :
  IdentityGroup.on_event (fun m _ => Ret m) "/identity-groups/cell.web/7"
    (Some Deleted) None
  = Ret (Some [("topic", JStr "/identity-groups");
               ("identity-group", JStr "cell.web");
               ("identity", JInt 7);
               ("app", JNull);
               ("host", JNull);
               ("sow", JBool false)]).
Proof.
  exact (identity_group_event_message (fun m _ => Ret m) "cell.web" "7" 7
           (Some Deleted) None eq_refl eq_refl (or_introl eq_refl)).
Defined.

(** X20.  What the identity-group topic answers.  It answers [None]
    exactly for the names that do not start with [/identity-groups/],
    whatever the operation and the content; and when there is no content
    to parse, the only exception it raises is a [ValueError]. *)
Theorem identity_group_event_outcomes yu filename op content :
  (IdentityGroup.on_event yu filename op content = Ret None
   <-> String.prefix "/identity-groups/" filename = false) /\
  (content = None \/ content = Some EmptyString ->
   forall e, IdentityGroup.on_event yu filename op content = Raise e ->
             exn_cls e = StandardErrorSub "ValueError").
Proof.
  split; [| intros Hc e; by apply identity_on_event_raises].
  unfold IdentityGroup.on_event.
  change IdentityGroup.prefix with "/identity-groups/".
  destruct (String.prefix "/identity-groups/" filename); cbn [negb]; [| done].
  split; [| done].
  destruct (IdentityGroup.rsplit1 _) as [[g i]|]; [| done].
  destruct (IdentityGroup.py_int i); [| done].
  destruct content as [[|c r]|]; try done.
  by destruct (yu _ _).
Qed.

(** X21.  Events without content do not break the dispatch of the
    identity-group topic.  When the bucket of the directory holds
    identity-group subscriptions only, with patterns that compile (the
    topic subscribes with [*]), and the event carries no content (a
    deletion, an empty file), [_notify] runs to its end, and every
    connection ends up with what its own subscriptions deliver to it: a
    name the topic cannot read puts the error frame on the connections
    that subscribed to it and stops nothing. *)
Theorem identity_group_dispatch_without_content sc yu w path op content when st :
  let bucket := default [] (handlers (hub st) !! dirname path) in
  let relpath := drop_prefix (String.length (root (hub st))) path in
  (forall s, In s bucket ->
     sub_impl s = IdentityGroup.api sc yu /\ compiles (sub_pattern s) = true) ->
  content = None \/ content = Some EmptyString ->
  exists st',
    _notify w path op content when st = (Ret tt, st') /\
    forall c, conns st' !!! c
              = fold_left (deliver w relpath (basename path) op content when)
                  (subs_of c bucket) (conns st !!! c).
Proof.
  intros bucket relpath Himpl Hc.
  assert (Hstd : forall s, In s bucket -> active st (sub_handler s) = true ->
            compiles (sub_pattern s) = true /\
            (fnmatch (basename path) (sub_pattern s) = true ->
             forall e, on_event (sub_impl s) relpath op content = Raise e ->
                       is_StandardError e = true)).
  { intros s Hin _. destruct (Himpl s Hin) as [Hi Hp]. split; [exact Hp |].
    intros _ e He. rewrite Hi in He. cbn [IdentityGroup.api on_event] in He.
    unfold is_StandardError.
    by rewrite (identity_on_event_raises yu relpath op content e Hc He). }
  unfold _notify, handlers_getitem. run_monad.
  cbv beta iota. cbn [hub set_hub set_dispatched root handlers set_handlers].
  fold bucket. destruct (handlers (hub st) !! dirname path) as [l|] eqn:Hb.
  - destruct (notify_loop_deliver w (String.length (root (hub st))) path
                (basename path) op content when l
                (set_hub (fun p => set_dispatched
                            (dispatched p ++ [(path, op, content, when)]) p) st))
      as (st' & Hrun & _ & Hc'); [exact Hstd |].
    exists st'. split; [exact Hrun | exact Hc'].
  - eexists. split; [reflexivity | done].
Qed.

Lemma identity_group_dispatch_without_content_witness :
  exists st',
    _notify Scenario.the_world "/r/identity-groups/web/seven" (Some Deleted) None
      (2001 # 2) IdentityScenario.web_subscriber = (Ret tt, st') /\
    forall c, conns st' !!! c
              = fold_left (deliver Scenario.the_world "/identity-groups/web/seven"
                             "seven" (Some Deleted) None (2001 # 2))
                  (subs_of c
                     [ {| sub_pattern := "*"; sub_handler := 1%nat;
                          sub_impl := IdentityScenario.identity_api |} ])
                  (conns IdentityScenario.web_subscriber !!! c).
Proof.
  refine (identity_group_dispatch_without_content
            (fun _ => Ret tt)
            (fun message content =>
               if String.eqb content "a: b: c" then Raise Scenario.YAMLError
               else Ret message)
            Scenario.the_world "/r/identity-groups/web/seven" (Some Deleted) None
            (2001 # 2) IdentityScenario.web_subscriber _ (or_introl eq_refl)).
  intros s [<- | []]. split; reflexivity.
Defined.

(** X22.  Names the identity-group topic cannot read.  A name under
    [/identity-groups/] with a single component (no group) raises the
    [ValueError] of the unpacking, and a name whose last component is not
    an integer raises the [ValueError] of [int]; both are raised before
    the content is looked at, so with any content. *)
Theorem identity_group_event_malformed yu i op content :
  no_slash i = true ->
  IdentityGroup.on_event yu ("/identity-groups/" ++ i) op content
  = Raise IdentityGroup.unpack_error /\
  (IdentityGroup.py_int i = None ->
   forall g,
     IdentityGroup.on_event yu ("/identity-groups/" ++ g ++ "/" ++ i) op content
     = Raise (IdentityGroup.invalid_literal i)).
Proof.
  intros Hi. split.
  - by rewrite identity_on_event_under_prefix, (rsplit1_no_slash i Hi).
  - intros Hn g. rewrite identity_on_event_under_prefix.
    change (g ++ "/" ++ i) with (g ++ String slash i).
    by rewrite (rsplit1_last g i Hi), Hn.
Qed.

Lemma identity_group_event_malformed_witness :
  IdentityGroup.on_event (fun m _ => Ret m) "/identity-groups/seven"
    (Some Created) (Some "app: x")
  = Raise IdentityGroup.unpack_error /\
  (IdentityGroup.py_int "seven" = None ->
   forall g,
     IdentityGroup.on_event (fun m _ => Ret m)
       ("/identity-groups/" ++ g ++ "/" ++ "seven") (Some Created) (Some "app: x")
     = Raise (IdentityGroup.invalid_literal "seven")).
Proof.
  exact (identity_group_event_malformed (fun m _ => Ret m) "seven" (Some Created)
           (Some "app: x") eq_refl).
Defined.

(** X23.  Subscription and interpretation agree.  A request that the
    schema accepts and that names a group [g] (not empty, no slash)
    resolves to the one pair (directory [/identity-groups/g], pattern
    [*]); every file name matches that pattern, and the message the topic
    makes of a file [i] of that directory carries the group [g] of the
    request. *)
Theorem identity_group_round_trip sc yu fields g i n op :
  sc (JObj fields) = Ret tt ->
  assoc "identity-group" fields = Some (JStr g) ->
  g <> EmptyString ->
  no_slash g = true ->
  no_slash i = true ->
  IdentityGroup.py_int i = Some n ->
  exists d,
    IdentityGroup.subscribe sc (JObj fields) = Ret [(d, "*")] /\
    fnmatch i "*" = true /\
    exists m,
      IdentityGroup.on_event yu (path_join d i) op None = Ret (Some m) /\
      assoc "identity-group" m = Some (JStr g) /\
      assoc "identity" m = Some (JInt n).
Proof.
  intros Hsc Hg Hne Hgs His Hn.
  assert (Hends : forall s, no_slash s = true -> ends_with_slash s = false).
  { induction s as [|c s IH]; [done |]. simpl. intros [Hc Hs]%andb_prop.
    destruct s; [by destruct (Ascii.eqb c slash) | by apply IH]. }
  assert (Hends2 : forall a s, ends_with_slash s = false -> s <> EmptyString ->
                               ends_with_slash (a ++ s) = false).
  { induction a as [|c a IH]; intros s Hs Hs0; [done |]. simpl.
    rewrite (IH s Hs Hs0). destruct (a ++ s) eqn:E; [| done].
    destruct a; [by destruct (Hs0 E) | done]. }
  assert (Hd : path_join "/identity-groups" g = "/identity-groups/" ++ g).
  { destruct g as [|c g]; [done |]. unfold path_join.
    simpl in Hgs. apply andb_prop in Hgs as [Hc _].
    apply negb_true_iff in Hc. by rewrite Hc. }
  exists ("/identity-groups/" ++ g). split; [| split].
  - unfold IdentityGroup.subscribe. rewrite Hsc. cbn [obind]. unfold dict_get.
    by rewrite Hg, Hd.
  - apply fnmatch_star_any.
  - assert (Hj : path_join ("/identity-groups/" ++ g) i
                 = "/identity-groups/" ++ g ++ "/" ++ i).
    { unfold path_join.
      assert (He : ends_with_slash ("/identity-groups/" ++ g) = false)
        by (apply Hends2; [by apply Hends | done]).
      rewrite He. destruct i as [|c i].
      - done.
      - simpl in His. apply andb_prop in His as [Hc _].
        apply negb_true_iff in Hc. rewrite Hc. cbn [String.eqb orb].
        reflexivity. }
    rewrite Hj, identity_on_event_under_prefix.
    change (g ++ "/" ++ i) with (g ++ String slash i).
    rewrite (rsplit1_last g i His), Hn. cbv zeta.
    eexists. split; [reflexivity |]. by split.
Qed.

Lemma identity_group_round_trip_witness :
  exists d,
    IdentityGroup.subscribe (fun _ => Ret tt)
      (JObj [("topic", JStr "/identity-groups"); ("identity-group", JStr "web")])
    = Ret [(d, "*")] /\
    fnmatch "7" "*" = true /\
    exists m,
      IdentityGroup.on_event (fun m _ => Ret m) (path_join d "7") (Some Deleted) None
      = Ret (Some m) /\
      assoc "identity-group" m = Some (JStr "web") /\
      assoc "identity" m = Some (JInt 7).
Proof.
  apply (identity_group_round_trip (fun _ => Ret tt) (fun m _ => Ret m)
           [("topic", JStr "/identity-groups"); ("identity-group", JStr "web")]
           "web" "7" 7 (Some Deleted));
    [reflexivity | reflexivity | discriminate | reflexivity | reflexivity | reflexivity].
Defined.

(** ** Replay: the files of a plain directory *)

Lemma list_ascii_of_string_app a b :
  list_ascii_of_string (a ++ b)
  = (list_ascii_of_string a ++ list_ascii_of_string b)%list.
Proof.
  induction a as [|c a IH]; [done |].
  change (c :: list_ascii_of_string (a ++ b)
          = c :: (list_ascii_of_string a ++ list_ascii_of_string b)%list).
  by rewrite IH.
Qed.

Lemma has_magic_app a b : has_magic (a ++ b) = has_magic a || has_magic b.
Proof. unfold has_magic. by rewrite list_ascii_of_string_app, existsb_app. Qed.

Lemma rstrip_slash_app_slash d :
  d <> EmptyString -> ends_with_slash d = false -> rstrip_slash (d ++ "/") = d.
Proof.
  induction d as [|c d IH]; [done |]. intros _ He.
  change (rstrip_slash (String c (d ++ "/")) = String c d). cbn [rstrip_slash].
  destruct d as [|c' d'].
  - cbn [ends_with_slash] in He. change (EmptyString ++ "/") with "/".
    cbn [rstrip_slash]. change (Ascii.eqb slash slash) with true. cbv iota.
    by rewrite He.
  - rewrite IH; [done | done |]. exact He.
Qed.

(* the split of the pathname that [_get_fs_sow] joins, for a directory
   that does not end with a slash and a pattern without a slash *)
Lemma path_split_join d pattern c r :
  d <> EmptyString -> ends_with_slash d = false ->
  pattern = String c r -> no_slash pattern = true ->
  path_join d pattern = d ++ "/" ++ pattern /\
  path_split (d ++ "/" ++ pattern) = (d, pattern).
Proof.
  intros Hd He -> Hp. split.
  - unfold path_join. cbn [no_slash] in Hp. apply andb_prop in Hp as [Hc _].
    apply negb_true_iff in Hc. rewrite Hc, He.
    destruct (String.eqb_spec d EmptyString); [done | reflexivity].
  - unfold path_split.
    change (d ++ "/" ++ String c r) with (d ++ String slash (String c r)).
    rewrite (rsplit_slash_last d (String c r) Hp).
    rewrite (rstrip_slash_app_slash d Hd He). by destruct d.
Qed.

(** X24.  Which files a replay scans, for a subscription to a directory
    whose path has no magic and does not end with a slash, with a pattern
    that has magic and no slash: when the directory cannot be listed,
    none; otherwise the names of the directory that match the pattern
    (the names that start with a dot only if the pattern does), in the
    order of the listing, each joined to the directory.  Nothing below
    the directory is looked at; when the directory can be listed, a
    pattern that does not compile makes the scan raise. *)
Theorem scan_lists_the_directory w d pattern :
  d <> EmptyString ->
  ends_with_slash d = false ->
  has_magic d = false ->
  has_magic pattern = true ->
  no_slash pattern = true ->
  glob_glob w (path_join d pattern)
  = match listdir (fs w) d with
    | None => Ret []
    | Some names =>
        obind (fnmatch_filter
                 (if starts_with_dot pattern then names
                  else List.filter (fun x => negb (starts_with_dot x)) names)
                 pattern)
              (fun found => Ret (List.map (path_join d) found))
    end.
Proof.
  intros Hd He Hmd Hmp Hp.
  destruct pattern as [|c r]; [done |].
  destruct (path_split_join d (String c r) c r Hd He eq_refl Hp) as [Hj Hs].
  rewrite Hj. unfold glob_glob.
  destruct (String.length (d ++ "/" ++ String c r)) as [|n] eqn:Hn; cbn [iglob];
    unfold iglob_step; rewrite Hs.
  all: assert (Hm : has_magic (d ++ "/" ++ String c r) = true)
         by (rewrite !has_magic_app, Hmp; by destruct (has_magic d), (has_magic "/")).
  all: rewrite Hm, Hmd, Hmp; cbn [negb].
  all: destruct (String.eqb_spec d EmptyString) as [|_]; [done |].
  all: rewrite andb_false_r; cbn [obind glob_in_dirs]; unfold glob1.
  all: destruct (String.eqb_spec d EmptyString) as [|_]; [done |].
  all: destruct (listdir (fs w) d) as [names|]; cbn [obind]; [| done].
  all: unfold getitem0, starts_with_dot; cbn [head_char obind].
  all: destruct (Ascii.eqb c dot); cbn [negb].
  all: destruct (fnmatch_filter _ (String c r)) as [found|e]; cbn [obind]; [| done].
  all: by rewrite app_nil_r.
Qed.

Lemma scan_lists_the_directory_witness :
  glob_glob Scenario.the_world (path_join "/r/endpoints" ".*")
  = match listdir (fs Scenario.the_world) "/r/endpoints" with
    | None => Ret []
    | Some names =>
        obind (fnmatch_filter
                 (if starts_with_dot ".*" then names
                  else List.filter (fun x => negb (starts_with_dot x)) names)
                 ".*")
              (fun found => Ret (List.map (path_join "/r/endpoints") found))
    end.
Proof.
  apply (scan_lists_the_directory Scenario.the_world "/r/endpoints" ".*");
    [discriminate | reflexivity | reflexivity | reflexivity | reflexivity].
Defined.
